(** * Cypress support commands of the product-catalog API suite

    A shallow embedding of [cypress/support/commands.ts]: the order
    verification helper [assertSortedByKey], the token cache shared by
    [loginUser], [getCurrentUser] and [refreshSession], and the request
    built by [getProductByCategory].

    The helper leans on three collaborators that are not part of the
    repository: the JavaScript relational operators, lodash ([orderBy],
    [isEqual]) and chai ([expect(..).to.deep.equal]).  Each of them is
    modelled in a section of its own, following the ECMAScript
    specification and the lodash 4.17 sources, before the commands
    themselves are transcribed.  What ECMAScript leaves to the engine
    (the order [Array.prototype.sort] gives under a comparison that is
    not consistent, the digits of a large number, the text of a built-in
    function, the reading of a numeral) is an interface, [Host], and the
    properties hold for every engine. *)

From Stdlib Require Import ZArith Lia Permutation Sorted.
From stdpp Require Import base option list sorting gmap strings pretty fin_maps.

Set Warnings "-register-all".

(** ** JavaScript values

    The values a deserialized response body can hold, plus [undefined]
    (what reading an absent field yields) and the values a record finds
    on [Object.prototype] when it has no field of its own under a name.
    Numbers are the integers among the doubles: the helper never computes
    with a number, it only compares them.  Strings are sequences of code
    units, of which the model has those below 256.  Objects are finite
    maps from field names to values, so that two objects with the same
    fields are the same value whatever the order the fields were written
    in.  [JBuiltin name] is the value [Object.prototype] holds under
    [name]: a function, or for ["__proto__"] the prototype itself. *)

Inductive jsval : Type :=
  | JUndefined
  | JNull
  | JBool (b : bool)
  | JNum (n : Z)
  | JStr (s : string)
  | JArr (elems : list jsval)
  | JObj (fields : gmap string jsval)
  | JBuiltin (name : string).

Abbreviation record := (gmap string jsval).

Global Instance jsval_eq_dec : EqDecision jsval.
Proof.
  refine (fix go (x y : jsval) {struct x} : Decision (x = y) :=
    let _ : EqDecision jsval := @go in
    match x, y with
    | JUndefined, JUndefined => left _
    | JNull, JNull => left _
    | JBool a, JBool b => cast_if (decide (a = b))
    | JNum a, JNum b => cast_if (decide (a = b))
    | JStr a, JStr b => cast_if (decide (a = b))
    | JArr a, JArr b => cast_if (decide (a = b))
    | JObj a, JObj b => cast_if (decide (a = b))
    | JBuiltin a, JBuiltin b => cast_if (decide (a = b))
    | _, _ => right _
    end); abstract congruence.
Defined.

(** [x] may come before [y] under [comparefn]. *)
Definition le_by {A} (comparefn : A → A → Z) (x y : A) : Prop :=
  (comparefn x y ≤ 0)%Z.

(** "May come before" is transitive on the elements of [l]. *)
Definition transitive_on {A} (comparefn : A → A → Z) (l : list A) : Prop :=
  ∀ a b c, a ∈ l → b ∈ l → c ∈ l →
    le_by comparefn a b → le_by comparefn b c → le_by comparefn a c.

(** A comparison function that orders the elements of [l]: swapping its
    arguments swaps the sign of its result, and "may come before" is
    transitive.  A [comparefn] like this one is a consistent comparator
    in the sense of ECMAScript (23.1.3.30.2). *)
Definition consistent {A} (comparefn : A → A → Z) (l : list A) : Prop :=
  (∀ a b, a ∈ l → b ∈ l →
     Z.sgn (comparefn b a) = (- Z.sgn (comparefn a b))%Z) ∧
  transitive_on comparefn l.

(** ** The host

    What the engine that runs the suite decides, and neither the program
    nor ECMAScript does:
    - [StringToNumber] (7.1.4.1.1), with [None] for NaN;
    - [BuiltinToString name], the source text of the function
      [Object.prototype] holds under [name], as
      [Function.prototype.toString] gives it;
    - [LargeNumberToString], the digits [Number::toString] prints for an
      integer that is not a safe integer: it rounds to the shortest
      numeral that reads back as the same double, and goes over to the
      exponent form from 1e21;
    - [Array_sort], [Array.prototype.sort(comparefn)] on the list of the
      elements of an array without holes or [undefined] elements, as
      the array of entries [orderBy] sorts is.  ECMAScript fixes the
      order of the result for a consistent [comparefn] only, and leaves
      it to the implementation otherwise.  What every implementation
      does: the result holds the elements of the array, it is in order
      when [comparefn] is consistent on them, and the elements are
      looked at through [comparefn] alone, so that a [comparefn] that
      agrees with another on the elements gives the same result, and
      sorting the images of the elements under [f] is sorting the
      elements by the images. *)
Class Host := {
  StringToNumber : string → option Z;
  BuiltinToString : string → string;
  LargeNumberToString : Z → string;
  Array_sort : ∀ {A : Type}, (A → A → Z) → list A → list A;
  Array_sort_permutation : ∀ {A} (comparefn : A → A → Z) l,
    Array_sort comparefn l ≡ₚ l;
  Array_sort_in_order : ∀ {A} (comparefn : A → A → Z) l,
    consistent comparefn l →
    StronglySorted (le_by comparefn) (Array_sort comparefn l);
  Array_sort_ext : ∀ {A} (comparefn comparefn' : A → A → Z) l,
    (∀ x y, x ∈ l → y ∈ l → comparefn x y = comparefn' x y) →
    Array_sort comparefn l = Array_sort comparefn' l;
  Array_sort_natural : ∀ {A B} (f : A → B) (comparefn : B → B → Z) l,
    Array_sort comparefn (f <$> l) =
    f <$> Array_sort (λ x y, comparefn (f x) (f y)) l
}.

(** The names under which [Object.prototype] has a property. *)
Definition Object_prototype : list string :=
  [ "constructor"; "__defineGetter__"; "__defineSetter__"; "hasOwnProperty";
    "__lookupGetter__"; "__lookupSetter__"; "isPrototypeOf";
    "propertyIsEnumerable"; "toString"; "valueOf"; "__proto__";
    "toLocaleString" ].

(** What a record deserialized from a response body inherits under
    [key]: its prototype is [Object.prototype], whose own prototype is
    [null]. *)
Definition inherited (key : string) : option jsval :=
  if bool_decide (key ∈ Object_prototype) then Some (JBuiltin key) else None.

(** [o[key]]: the field of the record itself, or else the property it
    inherits, or else [undefined]. *)
Definition get (o : record) (key : string) : jsval :=
  match o !! key with
  | Some v => v
  | None => default JUndefined (inherited key)
  end.

(** [sorted[i]] on an array of records: out of range reads as [undefined]. *)
Definition at_index (a : list record) (i : nat) : jsval :=
  default JUndefined (JObj <$> a !! i).

(** [v == null] *)
Definition is_nullish (v : jsval) : bool :=
  match v with
  | JUndefined | JNull => true
  | _ => false
  end.

(** [a ?? b] *)
Definition nullish_coalesce (a b : jsval) : jsval :=
  if is_nullish a then b else a.

(** [a === b].  On arrays and objects JavaScript compares references; the
    model compares contents.  [compareAscending] only uses [===] as a
    short cut: [<] and [>] never hold between two values with the same
    contents (lemmas [js_lt_irrefl] and [js_gt_irrefl]), so its verdict on
    them is 0 with or without the short cut. *)
Definition strict_equals (a b : jsval) : bool := bool_decide (a = b).

(** Lower-casing of one code unit: the Latin capital letters A-Z and
    the accented capitals U+00C0-U+00DE (the multiplication sign U+00D7
    apart) move up by 32. *)
Definition lower_unit (c : Ascii.ascii) : Ascii.ascii :=
  let n := Ascii.N_of_ascii c in
  if ((65 <=? n) && (n <=? 90) ||
      (192 <=? n) && (n <=? 222) && negb (n =? 215))%N
  then Ascii.ascii_of_N (n + 32)
  else c.

(** [s.toLocaleLowerCase()] in a host whose locale has no special casing
    rules. *)
Fixpoint toLocaleLowerCase (s : string) : string :=
  match s with
  | EmptyString => EmptyString
  | String c s' => String (lower_unit c) (toLocaleLowerCase s')
  end.

Section Conversions.
Context `{Host}.

(** [Number::toString] (6.1.6.1.20): a safe integer prints as its decimal
    digits; beyond them the host rounds. *)
Definition NumberToString (n : Z) : string :=
  if (Z.abs n <=? 2 ^ 53)%Z then pretty n else LargeNumberToString n.

(** [ToString], with [Array.prototype.join] for arrays (a [null] or
    [undefined] element prints as the empty string),
    [Object.prototype.toString] for plain objects and for
    [Object.prototype], and [Function.prototype.toString] for the
    functions [Object.prototype] holds. *)
Fixpoint ToString (v : jsval) : string :=
  match v with
  | JUndefined => "undefined"
  | JNull => "null"
  | JBool true => "true"
  | JBool false => "false"
  | JNum n => NumberToString n
  | JStr s => s
  | JArr elems =>
      String.concat ","
        (List.map (λ e, if is_nullish e then "" else ToString e) elems)
  | JObj _ => "[object Object]"
  | JBuiltin name =>
      if bool_decide (name = "__proto__") then "[object Object]"
      else BuiltinToString name
  end.

(** [ToPrimitive(v, number)]: [valueOf] of an array, a plain object or a
    function is the object itself, so [toString] decides. *)
Definition ToPrimitive (v : jsval) : jsval :=
  match v with
  | JArr _ | JObj _ | JBuiltin _ => JStr (ToString v)
  | _ => v
  end.
End Conversions.

Section Relational.
Context `{Host}.

(** [ToNumber] of a primitive; [None] is NaN. *)
Definition ToNumber (p : jsval) : option Z :=
  match p with
  | JUndefined => None
  | JNull => Some 0%Z
  | JBool true => Some 1%Z
  | JBool false => Some 0%Z
  | JNum n => Some n
  | JStr s => StringToNumber s
  | JArr _ | JObj _ | JBuiltin _ => StringToNumber (ToString p)
  end.

(** [IsLessThan(x, y)] (ECMAScript 7.2.13): two strings compare by code
    units, anything else numerically; [None] is the [undefined] that a
    NaN operand gives. *)
Definition IsLessThan (x y : jsval) : option bool :=
  match ToPrimitive x, ToPrimitive y with
  | JStr sx, JStr sy => Some (String.ltb sx sy)
  | px, py =>
      match ToNumber px, ToNumber py with
      | Some nx, Some ny => Some (nx <? ny)%Z
      | _, _ => None
      end
  end.

(** [x < y] and [x > y] *)
Definition js_lt (x y : jsval) : bool := default false (IsLessThan x y).
Definition js_gt (x y : jsval) : bool := default false (IsLessThan y x).
End Relational.

(** ** lodash: [orderBy] and [isEqual] *)

Inductive direction := asc | desc.

Global Instance direction_eq_dec : EqDecision direction.
Proof. solve_decision. Defined.

(** What [baseOrderBy] sorts: the element with its criteria and its
    position in the collection. *)
Record entry := { criteria : list jsval; index : Z; value : record }.

(** [isSymbol]: the values above hold no symbol. *)
Definition isSymbol (v : jsval) : bool := false.

Section Lodash.
Context `{Host}.

Definition compareAscending (v other : jsval) : Z :=
  if negb (strict_equals v other) then
    let valIsDefined := negb (strict_equals v JUndefined) in
    let valIsNull := strict_equals v JNull in
    let valIsReflexive := strict_equals v v in
    let valIsSymbol := isSymbol v in
    let othIsDefined := negb (strict_equals other JUndefined) in
    let othIsNull := strict_equals other JNull in
    let othIsReflexive := strict_equals other other in
    let othIsSymbol := isSymbol other in
    if (negb othIsNull && negb othIsSymbol && negb valIsSymbol && js_gt v other)
       || (valIsSymbol && othIsDefined && othIsReflexive && negb othIsNull && negb othIsSymbol)
       || (valIsNull && othIsDefined && othIsReflexive)
       || (negb valIsDefined && othIsReflexive)
       || negb valIsReflexive
    then 1%Z
    else if (negb valIsNull && negb valIsSymbol && negb othIsSymbol && js_lt v other)
       || (othIsSymbol && valIsDefined && valIsReflexive && negb valIsNull && negb valIsSymbol)
       || (othIsNull && valIsDefined && valIsReflexive)
       || (negb othIsDefined && valIsReflexive)
       || negb othIsReflexive
    then (-1)%Z
    else 0%Z
  else 0%Z.

(** The loop of [compareMultiple] over the criteria: the first
    criterion that tells the two apart decides, with the sign of its
    order when [orders] has one at that position.  [None] when the loop
    runs to its end. *)
Fixpoint compareCriteria (objCriteria othCriteria : list jsval)
    (orders : list direction) : option Z :=
  match objCriteria with
  | [] => None
  | c :: objCriteria' =>
      let result := compareAscending c (default JUndefined (head othCriteria)) in
      if bool_decide (result ≠ 0%Z) then
        match orders with
        | [] => Some result
        | order :: _ => Some (result * (if order is desc then -1 else 1))%Z
        end
      else compareCriteria objCriteria' (tail othCriteria) (tail orders)
  end.

Definition compareMultiple (object other : entry) (orders : list direction) : Z :=
  match compareCriteria (criteria object) (criteria other) orders with
  | Some result => result
  | None => (index object - index other)%Z
  end.
End Lodash.

Section OrderBy.
Context `{Host}.

(** [baseSortBy]: sort, then unwrap the elements. *)
Definition baseSortBy (array : list entry) (comparer : entry → entry → Z) : list record :=
  value <$> Array_sort comparer array.

(** [baseOrderBy] for iteratees that are functions already. *)
Definition baseOrderBy (collection : list record)
    (iteratees : list (record → jsval)) (orders : list direction) : list record :=
  let iteratees := match iteratees with [] => [JObj] | _ => iteratees end in
  let result :=
    imap (λ i v, {| criteria := (λ iteratee, iteratee v) <$> iteratees;
                    index := Z.of_nat i;
                    value := v |}) collection in
  baseSortBy result (λ object other, compareMultiple object other orders).

Definition orderBy := baseOrderBy.
End OrderBy.

(** [_.isEqual]: on the values above, equality of contents. *)
Definition isEqual (a b : jsval) : bool := bool_decide (a = b).

(** [Array.prototype.findIndex], for a predicate of the element and its
    index: the first index that satisfies it, or -1. *)
Fixpoint findIndex_from {A} (p : A → nat → bool) (i : nat) (l : list A) : Z :=
  match l with
  | [] => (-1)%Z
  | x :: l' => if p x i then Z.of_nat i else findIndex_from p (S i) l'
  end.

Definition findIndex {A} (p : A → nat → bool) (l : list A) : Z :=
  findIndex_from p 0 l.

(** ** chai and Cypress *)

(** What is thrown: chai's assertion error with its message, the
    assertion error of [expect(actual).to.eq(expected)] on two numbers
    (whose message chai composes from the two), a plain [Error], and what
    [cy.request] fails with on a refused status. *)
Inductive error :=
  | AssertionError (message : string)
  | NotEqual (actual expected : Z)
  | Error (message : string)
  | StatusCodeError (status : Z).

(** [expect(actual, message).to.deep.equal(expected)]: deep equality of
    two arrays of records is equality of contents; a mismatch throws an
    assertion error whose message starts with [message] (chai appends
    its rendering of the two arrays, which the model leaves out). *)
Definition expect_deep_equal (actual : list record) (message : string)
    (expected : list record) : option error :=
  if bool_decide (actual = expected) then None
  else Some (AssertionError message).

(** What [Cypress.log] receives, [consoleProps] evaluated. *)
Record consoleProps :=
  { expected : jsval; actual : jsval; key : string; order : direction }.

Record log_entry :=
  { name : string; message : string; props : consoleProps }.

(** A run of a synchronous helper: what it logged, and the error it threw
    if any. *)
Record outcome := { logged : list log_entry; thrown : option error }.

(** ** The order verification helper *)

Definition direction_name (o : direction) : string :=
  match o with asc => "asc" | desc => "desc" end.

(** [norm], the normalisation of the primary key. *)
Definition norm (v : jsval) : jsval :=
  if is_nullish v then JStr ""
  else match v with
       | JStr s => JStr (toLocaleLowerCase s)
       | _ => v
       end.

(** The two iteratees and their orders. *)
Definition iteratees (key : string) : list (record → jsval) :=
  [ (λ o, norm (get o key));
    (λ o, nullish_coalesce (get o "id") (JNum 0)) ].

Definition orders (order : direction) : list direction := [order; asc].

Section Helper.
Context `{Host}.

(** The [catch] block, given what [findIndex] returned. *)
Definition report_mismatch (array sorted : list record) (key : string)
    (order : direction) (err : error) (firstMismatchIndex : Z) : outcome :=
  {| logged :=
       if (0 <=? firstMismatchIndex)%Z then
         [ {| name := "Unordered Item";
              message := "Break at index " +:+ NumberToString firstMismatchIndex
                         +:+ " for key '" +:+ key +:+ "'";
              props := {| expected := at_index sorted (Z.to_nat firstMismatchIndex);
                          actual := at_index array (Z.to_nat firstMismatchIndex);
                          key := key;
                          order := order |} |} ]
       else [];
     thrown := Some err |}.

(** [order] defaults to ["asc"]: a call without it is a call with [asc]. *)
Definition assertSortedByKey (array : list record) (key : string)
    (order : direction) : outcome :=
  let sorted := orderBy array (iteratees key) (orders order) in
  match expect_deep_equal array
          ("Array should be sorted by '" +:+ key +:+ "' in " +:+ direction_name order
           +:+ " order (case-insensitive for strings)")
          sorted with
  | None => {| logged := []; thrown := None |}
  | Some err =>
      let firstMismatchIndex :=
        findIndex (λ item i, negb (isEqual (JObj item) (at_index sorted i))) array in
      report_mismatch array sorted key order err firstMismatchIndex
  end.
End Helper.

(** ** Arrays as objects in a store

    In JavaScript [array] is a reference, and [baseSortBy] sorts in place.
    To see which array is written, the same [orderBy] once more with the
    arrays in a store: [baseMap] allocates the array of entries,
    [Array.prototype.sort] and the unwrapping loop of [baseSortBy] write
    to that array, and the reference that comes back is the new one. *)

Inductive cell :=
  | Records (elems : list record)
  | Entries (elems : list entry).

Abbreviation store := (gmap positive cell).

Definition records_at (σ : store) (l : positive) : list record :=
  match σ !! l with
  | Some (Records elems) => elems
  | _ => []
  end.

Definition unwrap_in_place (c : cell) : cell :=
  match c with
  | Entries elems => Records (value <$> elems)
  | Records elems => Records elems
  end.

Section InStore.
Context `{Host}.

Definition sort_in_place (comparer : entry → entry → Z) (c : cell) : cell :=
  match c with
  | Entries elems => Entries (Array_sort comparer elems)
  | Records elems => Records elems
  end.

Definition baseOrderBy_st (collection : positive)
    (iteratees : list (record → jsval)) (orders : list direction)
    (σ : store) : positive * store :=
  let iteratees := match iteratees with [] => [JObj] | _ => iteratees end in
  let result := fresh (dom σ) in
  let σ1 :=
    <[result := Entries
        (imap (λ i v, {| criteria := (λ iteratee, iteratee v) <$> iteratees;
                         index := Z.of_nat i;
                         value := v |}) (records_at σ collection))]> σ in
  let σ2 :=
    alter (sort_in_place (λ object other, compareMultiple object other orders))
          result σ1 in
  let σ3 := alter unwrap_in_place result σ2 in
  (result, σ3).

Definition assertSortedByKey_st (array : positive) (key : string)
    (order : direction) (σ : store) : outcome * store :=
  let '(sorted, σ') := baseOrderBy_st array (iteratees key) (orders order) σ in
  let array_now := records_at σ' array in
  let sorted_now := records_at σ' sorted in
  match expect_deep_equal array_now
          ("Array should be sorted by '" +:+ key +:+ "' in " +:+ direction_name order
           +:+ " order (case-insensitive for strings)")
          sorted_now with
  | None => ({| logged := []; thrown := None |}, σ')
  | Some err =>
      let firstMismatchIndex :=
        findIndex (λ item i, negb (isEqual (JObj item) (at_index sorted_now i)))
                  array_now in
      (report_mismatch array_now sorted_now key order err firstMismatchIndex, σ')
  end.
End InStore.

(** ** The request helpers and the token cache *)

Inductive http_method := GET | POST.

Record request :=
  { method : http_method;
    url : string;
    headers : gmap string string;
    qs : option record;
    body : option record }.

Record response (B : Type) := { status : Z; resp_body : B }.
Arguments status {B} _.
Arguments resp_body {B} _.

(** The body of a reply of the two session endpoints, as the commands
    declare it: [{ accessToken: string; refreshToken: string }]. *)
Record session_body := { body_accessToken : string; body_refreshToken : string }.

(** The module-level variables [accessToken] and [refreshToken]
    ([string | null], [None] for [null]), and the requests issued so
    far, oldest first. *)
Record world :=
  { accessToken : option string;
    refreshToken : option string;
    requests : list request }.

(** [let accessToken = null; let refreshToken = null;] *)
Definition initial : world :=
  {| accessToken := None; refreshToken := None; requests := [] |}.

(** The object [{ accessToken, refreshToken }] the session commands yield. *)
Record session := { session_accessToken : option string;
                    session_refreshToken : option string }.

(** A command either throws or yields a value, and leaves a world. *)
Inductive completion (A : Type) :=
  | Throw (e : error)
  | Yield (a : A).
Arguments Throw {A} _.
Arguments Yield {A} _.

Definition cmd (A : Type) : Type := world → completion A * world.

Global Instance cmd_ret : MRet cmd := λ A a w, (Yield a, w).

Global Instance cmd_bind : MBind cmd := λ A B f m w,
  match m w with
  | (Yield a, w') => f a w'
  | (Throw e, w') => (Throw e, w')
  end.

Definition throw {A} (e : error) : cmd A := λ w, (Throw e, w).

Definition read {A} (var : world → A) : cmd A := λ w, (Yield (var w), w).

Definition assign_accessToken (t : option string) : cmd unit := λ w,
  (Yield (), {| accessToken := t; refreshToken := refreshToken w;
                requests := requests w |}).

Definition assign_refreshToken (t : option string) : cmd unit := λ w,
  (Yield (), {| accessToken := accessToken w; refreshToken := t;
                requests := requests w |}).

(** [cy.request(options)]: the request goes out, the service answers, and
    with the default [failOnStatusCode] a status outside 2xx and 3xx
    fails the command. *)
Definition cy_request {B} (server : request → response B) (options : request)
    : cmd (response B) := λ w,
  let resp := server options in
  let w' := {| accessToken := accessToken w; refreshToken := refreshToken w;
               requests := requests w ++ [options] |} in
  if ((200 <=? status resp) && (status resp <? 400))%Z
  then (Yield resp, w')
  else (Throw (StatusCodeError (status resp)), w').

(** [expect(actual).to.eq(expected)] on numbers. *)
Definition expect_eq (actual expected : Z) : cmd unit :=
  if bool_decide (actual = expected) then mret ()
  else throw (NotEqual actual expected).

(** Truthiness of a [string | null | undefined]: the empty string is
    falsy too. *)
Definition truthy (t : option string) : bool :=
  match t with
  | Some s => bool_decide (s ≠ "")
  | None => false
  end.

(** [a || b] *)
Definition js_or (a b : option string) : option string :=
  if truthy a then a else b.

Definition json_string (t : option string) : jsval :=
  match t with
  | Some s => JStr s
  | None => JNull
  end.

Definition json_number (n : option Z) : jsval :=
  match n with
  | Some n => JNum n
  | None => JUndefined
  end.

Definition json_headers : gmap string string :=
  {[ "Content-Type" := "application/json" ]}.

Definition loginUser (server : request → response session_body)
    (username password : string) (expiresInMins : option Z) : cmd session :=
  let expiresInMins := default 30%Z expiresInMins in
  resp ← cy_request server
    {| method := POST;
       url := "/auth/login";
       headers := json_headers;
       qs := None;
       body := Some {[ "username" := JStr username;
                       "password" := JStr password;
                       "expiresInMins" := JNum expiresInMins ]} |};
  _ ← expect_eq (status resp) 200;
  _ ← assign_accessToken (Some (body_accessToken (resp_body resp)));
  _ ← assign_refreshToken (Some (body_refreshToken (resp_body resp)));
  a ← read accessToken;
  r ← read refreshToken;
  mret {| session_accessToken := a; session_refreshToken := r |}.

Definition getCurrentUser (server : request → response jsval) : cmd jsval :=
  a ← read accessToken;
  if negb (truthy a) then
    throw (Error "No access token — call cy.loginUser() first")
  else
    resp ← cy_request server
      {| method := GET;
         url := "/auth/me";
         headers := {[ "Authorization" := "Bearer " +:+ default "" a ]};
         qs := None;
         body := None |};
    _ ← expect_eq (status resp) 200;
    mret (resp_body resp).

Definition refreshSession (server : request → response session_body)
    (providedRefreshToken : option string) (expiresInMins : option Z)
    : cmd session :=
  let expiresInMins := default 30%Z expiresInMins in
  cached ← read refreshToken;
  let tokenToUse := js_or providedRefreshToken cached in
  if negb (truthy tokenToUse) then
    throw (Error "No refresh token — call cy.loginUser() first")
  else
    resp ← cy_request server
      {| method := POST;
         url := "/auth/refresh";
         headers := json_headers;
         qs := None;
         body := Some {[ "refreshToken" := json_string tokenToUse;
                         "expiresInMins" := JNum expiresInMins ]} |};
    _ ← expect_eq (status resp) 200;
    _ ← assign_accessToken (Some (body_accessToken (resp_body resp)));
    _ ← assign_refreshToken (Some (body_refreshToken (resp_body resp)));
    a ← read accessToken;
    r ← read refreshToken;
    mret {| session_accessToken := a; session_refreshToken := r |}.

Definition spread_if (name : string) (v : option Z) (o : record) : record :=
  match v with
  | Some n => <[name := JNum n]> o
  | None => o
  end.

Section Products.
Context `{Host}.

(** The url is the template literal [`/products/${productId}`]. *)
Definition getProducts (server : request → response jsval) (productId : Z)
    : cmd (response jsval) :=
  cy_request server
    {| method := GET; url := "/products/" +:+ NumberToString productId;
       headers := ∅; qs := None; body := None |}.
End Products.

Definition getAllProducts (server : request → response jsval)
    (limit skip : option Z) : cmd (response jsval) :=
  cy_request server
    {| method := GET; url := "/products"; headers := ∅;
       qs := Some {[ "limit" := json_number limit; "skip" := json_number skip ]};
       body := None |}.

Definition searchProduct (server : request → response jsval) (q : string)
    (limit skip : option Z) : cmd (response jsval) :=
  let qs := spread_if "skip" skip (spread_if "limit" limit {[ "q" := JStr q ]}) in
  cy_request server
    {| method := GET; url := "/products/search"; headers := ∅;
       qs := Some qs; body := None |}.

Definition filterByMultipleKeys (server : request → response jsval)
    (select : list string) (limit skip : option Z) : cmd (response jsval) :=
  let qs := spread_if "skip" skip
              (spread_if "limit" limit {[ "select" := JArr (JStr <$> select) ]}) in
  cy_request server
    {| method := GET; url := "/products"; headers := ∅;
       qs := Some qs; body := None |}.

(** [ALLOWED_SORT_BY_KEYS]: the sort keys [sortByNOrder] is declared
    for.  The compiler checks [sortBy] against them; at run time it is a
    string like any other. *)
Definition ALLOWED_SORT_BY_KEYS : list string :=
  [ "id"; "title"; "description"; "category"; "price"; "discountPercentage";
    "rating"; "stock"; "tags"; "brand"; "sku"; "weight"; "dimensions";
    "warrantyInformation"; "shippingInformation"; "availabilityStatus";
    "reviews"; "returnPolicy"; "minimumOrderQuantity"; "meta"; "images";
    "thumbnail" ].

Definition sortByNOrder (server : request → response jsval)
    (sortBy order : string) : cmd (response jsval) :=
  cy_request server
    {| method := GET; url := "/products"; headers := ∅;
       qs := Some {[ "sortBy" := JStr sortBy; "order" := JStr order ]};
       body := None |}.

Definition getProductsCategories (server : request → response jsval)
    : cmd (response jsval) :=
  cy_request server
    {| method := GET; url := "/products/categories"; headers := ∅;
       qs := None; body := None |}.

Definition getAllProductsCategoryList (server : request → response jsval)
    : cmd (response jsval) :=
  cy_request server
    {| method := GET; url := "/products/category-list"; headers := ∅;
       qs := None; body := None |}.

(** The interface declares [getProductByCategory(category: string)]; the
    function registered under that name takes no parameter. *)
Definition getProductByCategory (server : request → response jsval)
    (category : string) : cmd (response jsval) :=
  cy_request server
    {| method := GET; url := "/products/category/smartphones"; headers := ∅;
       qs := None; body := None |}.

(** A synchronous helper run as a command. *)
Definition run_sync (o : outcome) : cmd unit :=
  match thrown o with
  | Some e => throw e
  | None => mret ()
  end.

(** One call of any of the commands of the file, with the service that
    answers it. *)
Inductive call :=
  | CallLoginUser (server : request → response session_body)
      (username password : string) (expiresInMins : option Z)
  | CallGetCurrentUser (server : request → response jsval)
  | CallRefreshSession (server : request → response session_body)
      (providedRefreshToken : option string) (expiresInMins : option Z)
  | CallGetProducts (server : request → response jsval) (productId : Z)
  | CallGetAllProducts (server : request → response jsval) (limit skip : option Z)
  | CallSearchProduct (server : request → response jsval) (q : string)
      (limit skip : option Z)
  | CallFilterByMultipleKeys (server : request → response jsval)
      (select : list string) (limit skip : option Z)
  | CallSortByNOrder (server : request → response jsval) (sortBy order : string)
  | CallAssertSortedByKey (array : list record) (key : string) (order : direction)
  | CallGetProductsCategories (server : request → response jsval)
  | CallGetAllProductsCategoryList (server : request → response jsval)
  | CallGetProductByCategory (server : request → response jsval) (category : string).

Section Runs.
Context `{Host}.

(** The world a call leaves, whether it throws or not. *)
Definition after (c : call) (w : world) : world :=
  match c with
  | CallLoginUser server u p e => (loginUser server u p e w).2
  | CallGetCurrentUser server => (getCurrentUser server w).2
  | CallRefreshSession server t e => (refreshSession server t e w).2
  | CallGetProducts server i => (getProducts server i w).2
  | CallGetAllProducts server l s => (getAllProducts server l s w).2
  | CallSearchProduct server q l s => (searchProduct server q l s w).2
  | CallFilterByMultipleKeys server sel l s => (filterByMultipleKeys server sel l s w).2
  | CallSortByNOrder server sb o => (sortByNOrder server sb o w).2
  | CallAssertSortedByKey a k o => (run_sync (assertSortedByKey a k o) w).2
  | CallGetProductsCategories server => (getProductsCategories server w).2
  | CallGetAllProductsCategoryList server => (getAllProductsCategoryList server w).2
  | CallGetProductByCategory server c => (getProductByCategory server c w).2
  end.

Definition after_all (cs : list call) (w : world) : world :=
  foldl (λ w c, after c w) w cs.
End Runs.

(** ** The expected order

    The stable sort of the records by the normalised primary value in the
    given direction, then by [id] ascending: the comparison of two
    records, and the sort that keeps the input order of records that
    compare equal. *)
Section Expected.
Context `{Host}.

Definition primary (key : string) (o : record) : jsval := norm (get o key).
Definition id_of (o : record) : jsval := nullish_coalesce (get o "id") (JNum 0).

Definition compare_by_key (key : string) (order : direction) (a b : record) : Z :=
  let p := compareAscending (primary key a) (primary key b) in
  if bool_decide (p ≠ 0%Z) then
    match order with
    | asc => p
    | desc => (- p)%Z
    end
  else compareAscending (id_of a) (id_of b).

(** The comparison of two records that stand at given positions of the
    input: records that compare equal go by their position. *)
Definition compare_stably (key : string) (order : direction)
    (a b : nat * record) : Z :=
  let k := compare_by_key key order a.2 b.2 in
  if bool_decide (k ≠ 0%Z) then k else (Z.of_nat a.1 - Z.of_nat b.1)%Z.

(** A copy of the input, each record with its position, sorted. *)
Definition stable_sort_by_key (key : string) (order : direction)
    (array : list record) : list record :=
  snd <$> Array_sort (compare_stably key order) (imap pair array).

(** The entry [baseOrderBy] builds for the record at position [i], and
    what all the entries it builds for the helper have in common. *)
Definition decorate (key : string) (i : nat) (v : record) : entry :=
  {| criteria := (λ iteratee, iteratee v) <$> iteratees key;
     index := Z.of_nat i;
     value := v |}.

Definition decorated (key : string) (e : entry) : Prop :=
  criteria e = [primary key (value e); id_of (value e)].

(** Records whose value under [key] is a string or reads as [null] or
    [undefined], and whose [id] is a number or reads as [null] or
    [undefined]: what a catalog item looks like under a textual sort
    key. *)
Definition plain (key : string) (o : record) : Prop :=
  match primary key o, id_of o with
  | JStr _, JNum _ => True
  | _, _ => False
  end.

Global Instance plain_dec key o : Decision (plain key o).
Proof. unfold plain. destruct (primary key o), (id_of o); apply _. Defined.
End Expected.

(** [a] comes before [b] in [l]. *)
Definition precedes (a b : record) (l : list record) : Prop :=
  ∀ i j, l !! i = Some a → l !! j = Some b → i < j.

(** The number lodash returns for a comparison. *)
Definition sign (c : comparison) : Z :=
  match c with
  | Lt => (-1)%Z
  | Eq => 0%Z
  | Gt => 1%Z
  end.

(** A boolean, a number or a string. *)
Definition scalar (v : jsval) : Prop :=
  match v with
  | JBool _ | JNum _ | JStr _ => True
  | _ => False
  end.

Definition is_string (v : jsval) : Prop :=
  match v with
  | JStr _ => True
  | _ => False
  end.

Global Instance scalar_dec v : Decision (scalar v).
Proof. destruct v; apply _. Defined.

Global Instance is_string_dec v : Decision (is_string v).
Proof. destruct v; apply _. Defined.

Section Coerced.
Context `{Host}.

(** The comparison of two values as numbers: a tie when either is NaN. *)
Definition coerced (v w : jsval) : Z :=
  match ToNumber v, ToNumber w with
  | Some a, Some b => sign (a ?= b)%Z
  | _, _ => 0%Z
  end.
End Coerced.

(** The error of the assertion. *)
Definition not_sorted (key : string) (order : direction) : error :=
  AssertionError
    ("Array should be sorted by '" +:+ key +:+ "' in " +:+ direction_name order
     +:+ " order (case-insensitive for strings)").

(** ** Requests and replies of the session commands *)

(** The two errors of a missing credential. *)
Definition no_access_token : error :=
  Error "No access token — call cy.loginUser() first".

Definition no_refresh_token : error :=
  Error "No refresh token — call cy.loginUser() first".

(** The request [loginUser] sends. *)
Definition login_request (username password : string) (expiresInMins : option Z)
    : request :=
  {| method := POST;
     url := "/auth/login";
     headers := json_headers;
     qs := None;
     body := Some {[ "username" := JStr username;
                     "password" := JStr password;
                     "expiresInMins" := JNum (default 30%Z expiresInMins) ]} |}.

(** The request [refreshSession] sends for a token. *)
Definition refresh_request (token : string) (expiresInMins : option Z) : request :=
  {| method := POST;
     url := "/auth/refresh";
     headers := json_headers;
     qs := None;
     body := Some {[ "refreshToken" := JStr token;
                     "expiresInMins" := JNum (default 30%Z expiresInMins) ]} |}.

(** The world once a request has gone out. *)
Definition sent (options : request) (w : world) : world :=
  {| accessToken := accessToken w; refreshToken := refreshToken w;
     requests := requests w ++ [options] |}.

(** What [loginUser] and [refreshSession] do with an accepted reply. *)
Definition keep_session (resp : response session_body) : cmd session :=
  _ ← assign_accessToken (Some (body_accessToken (resp_body resp)));
  _ ← assign_refreshToken (Some (body_refreshToken (resp_body resp)));
  a ← read accessToken;
  r ← read refreshToken;
  mret {| session_accessToken := a; session_refreshToken := r |}.

(** ** A host, records and a service to run the definitions with

    The host reads a decimal integer numeral with an optional sign, and
    the empty string as 0; every other string is NaN to it.  It prints
    the functions of [Object.prototype] the way V8 does and every number
    with all its digits, and it sorts by insertion.  The properties below
    hold for every host; this one serves to evaluate the commands on
    concrete inputs. *)
Definition digit_value (c : Ascii.ascii) : option Z :=
  let n := Ascii.N_of_ascii c in
  if ((48 <=? n) && (n <=? 57))%N then Some (Z.of_N (n - 48)) else None.

Fixpoint digits_value (acc : Z) (s : string) : option Z :=
  match s with
  | EmptyString => Some acc
  | String c s' =>
      match digit_value c with
      | Some d => digits_value (10 * acc + d) s'
      | None => None
      end
  end.

Definition integer_numeral (s : string) : option Z :=
  match s with
  | EmptyString => Some 0%Z
  | String c EmptyString => digit_value c
  | String c s' =>
      let n := Ascii.N_of_ascii c in
      if (n =? 45)%N then Z.opp <$> digits_value 0 s'
      else if (n =? 43)%N then digits_value 0 s'
      else digits_value 0 s
  end.

(** The text V8 gives for a function of [Object.prototype]: the one
    under ["constructor"] is [Object]. *)
Definition native_code (name : string) : string :=
  "function " +:+ (if bool_decide (name = "constructor") then "Object" else name)
  +:+ "() { [native code] }".

(** The stable insertion sort: an element is placed before the first one
    it does not compare greater than. *)
Fixpoint sort_insert {A} (comparefn : A → A → Z) (x : A) (l : list A) : list A :=
  match l with
  | [] => [x]
  | y :: l' =>
      if (0 <? comparefn x y)%Z then y :: sort_insert comparefn x l'
      else x :: y :: l'
  end.

Definition insertion_sort {A} (comparefn : A → A → Z) (l : list A) : list A :=
  foldr (sort_insert comparefn) [] l.

Definition integer_host : Host.
Proof.
  refine {| StringToNumber := integer_numeral;
            BuiltinToString := native_code;
            LargeNumberToString := λ n, pretty n;
            Array_sort := @insertion_sort |}.
  - abstract (
      intros A comparefn l;
      assert (Hins : ∀ x s, sort_insert comparefn x s ≡ₚ x :: s)
        by (intros x s; induction s as [|y s IH]; simpl; [done|];
            destruct (0 <? comparefn x y)%Z; [|done];
            rewrite IH; apply Permutation_swap);
      induction l as [|x l IH]; simpl; [done|];
      by rewrite Hins, IH).
  - abstract (
      intros A comparefn l [Hanti Htrans];
      assert (Hins : ∀ x s, sort_insert comparefn x s ≡ₚ x :: s)
        by (intros x s; induction s as [|y s IH]; simpl; [done|];
            destruct (0 <? comparefn x y)%Z; [|done];
            rewrite IH; apply Permutation_swap);
      assert (Hperm : ∀ s, insertion_sort comparefn s ≡ₚ s)
        by (intros s; induction s as [|x s IH]; simpl; [done|];
            by rewrite Hins, IH);
      assert (Hsorted : ∀ x s, x ∈ l → s ⊆ l →
                StronglySorted (le_by comparefn) s →
                StronglySorted (le_by comparefn) (sort_insert comparefn x s));
      [ intros x s Hx Hs; induction 1 as [|y s Hsort IH Hall]; simpl;
        [ constructor; constructor
        | assert (Hy : y ∈ l) by (apply Hs; left);
          assert (Hs' : s ⊆ l) by (intros z Hz; apply Hs; by right);
          destruct (Z.ltb_spec 0 (comparefn x y)) as [Hgt|Hle];
          [ constructor; [by apply IH|];
            rewrite Hins; constructor; [|done];
            unfold le_by; specialize (Hanti x y Hx Hy); lia
          | constructor; [by constructor|];
            constructor; [done|];
            rewrite Forall_forall in Hall; apply Forall_forall; intros z Hz;
            apply (Htrans x y z); auto ] ]
      | assert (Hgo : ∀ s, s ⊆ l →
                  StronglySorted (le_by comparefn) (insertion_sort comparefn s));
        [ intros s; induction s as [|x s IH]; intros Hs; simpl; [constructor|];
          apply Hsorted;
          [ apply Hs; left
          | intros z Hz; apply Hs; right; by rewrite <- (Hperm s)
          | apply IH; intros z Hz; apply Hs; by right ]
        | by apply Hgo ] ]).
  - abstract (
      intros A comparefn comparefn' l Hext;
      assert (Hins : ∀ x s, sort_insert comparefn x s ≡ₚ x :: s)
        by (intros x s; induction s as [|y s IH]; simpl; [done|];
            destruct (0 <? comparefn x y)%Z; [|done];
            rewrite IH; apply Permutation_swap);
      assert (Hperm : ∀ s, insertion_sort comparefn s ≡ₚ s)
        by (intros s; induction s as [|x s IH]; simpl; [done|];
            by rewrite Hins, IH);
      assert (Hone : ∀ x s, x ∈ l → s ⊆ l →
                sort_insert comparefn x s = sort_insert comparefn' x s)
        by (intros x s Hx; induction s as [|y s IH]; intros Hs; simpl; [done|];
            rewrite (Hext x y Hx) by (apply Hs; left);
            rewrite IH by (intros z Hz; apply Hs; by right); done);
      assert (Hgo : ∀ s, s ⊆ l →
                insertion_sort comparefn s = insertion_sort comparefn' s);
      [ intros s; induction s as [|x s IH]; intros Hs; simpl; [done|];
        rewrite <- IH by (intros z Hz; apply Hs; by right);
        apply Hone;
        [ apply Hs; left
        | intros z Hz; apply Hs; right; by rewrite <- (Hperm s) ]
      | by apply Hgo ]).
  - abstract (
      intros A B f comparefn l;
      assert (Hone : ∀ x s,
                sort_insert comparefn (f x) (f <$> s) =
                f <$> sort_insert (λ x y, comparefn (f x) (f y)) x s)
        by (intros x s; induction s as [|y s IH]; simpl; [done|];
            destruct (0 <? comparefn (f x) (f y))%Z; [|done];
            rewrite fmap_cons; f_equal; apply IH);
      unfold insertion_sort;
      induction l as [|x l IH]; csimpl; [done|];
      by rewrite IH, Hone).
Defined.

Definition product (id : Z) (title : string) : record :=
  {[ "id" := JNum id; "title" := JStr title ]}.

Definition titled (title : string) : record :=
  {[ "title" := JStr title ]}.

(** A service that accepts every session request and hands out the given
    tokens. *)
Definition grants (access refresh : string) : request → response session_body :=
  λ _, {| status := 200;
          resp_body := {| body_accessToken := access;
                          body_refreshToken := refresh |} |}.

(** ** More notions for the statements *)

(** The request [getCurrentUser] sends with a token. *)
Definition me_request (token : string) : request :=
  {| method := GET;
     url := "/auth/me";
     headers := {[ "Authorization" := "Bearer " +:+ token ]};
     qs := None;
     body := None |}.

(** The body of the request has the field. *)
Definition carries (field : string) (r : request) : bool :=
  match body r with
  | Some b => bool_decide (is_Some (b !! field))
  | None => false
  end.

(** Credentials go where they belong: a request with an [Authorization]
    header goes to [/auth/me], one with a password to [/auth/login], one
    with a refresh token to [/auth/refresh]. *)
Definition confined (r : request) : Prop :=
  (is_Some (headers r !! "Authorization") → url r = "/auth/me") ∧
  (carries "password" r → url r = "/auth/login") ∧
  (carries "refreshToken" r → url r = "/auth/refresh").

(** The order of (key, id) pairs the helper checks: by key in the given
    direction, and by id upwards among equal keys. *)
Definition key_le {K} (compare : K → K → comparison) (order : direction)
    (k k' : K * Z) : Prop :=
  match compare k.1 k'.1 with
  | Eq => (k.2 ≤ k'.2)%Z
  | Lt => order = asc
  | Gt => order = desc
  end.

Section Keys.
Context `{Host}.

(** The record has the text [k.1] as its normalised primary value and
    the number [k.2] as its id. *)
Definition has_text_key (key : string) (o : record) (k : string * Z) : Prop :=
  primary key o = JStr k.1 ∧ id_of o = JNum k.2.

(** The same for a numeric primary value. *)
Definition has_number_key (key : string) (o : record) (k : Z * Z) : Prop :=
  primary key o = JNum k.1 ∧ id_of o = JNum k.2.

(** Records whose value under [key] and whose [id] are numbers. *)
Definition numeric (key : string) (o : record) : Prop :=
  match primary key o, id_of o with
  | JNum _, JNum _ => True
  | _, _ => False
  end.

Global Instance numeric_dec key o : Decision (numeric key o).
Proof. unfold numeric. destruct (primary key o), (id_of o); apply _. Defined.
End Keys.

(** A record with a price, to sort by a number. *)
Definition priced (id price : Z) : record :=
  {[ "id" := JNum id; "price" := JNum price ]}.

(** * Properties *)

(** ** The insertion sort *)

Section SortFacts.
Context {A : Type} (comparefn : A → A → Z).

Lemma sort_insert_perm x l : sort_insert comparefn x l ≡ₚ x :: l.
Proof.
  induction l as [|y l IH]; simpl; [done|].
  destruct (0 <? comparefn x y)%Z; [|done].
  rewrite IH. apply Permutation_swap.
Qed.

Lemma insertion_sort_perm l : insertion_sort comparefn l ≡ₚ l.
Proof.
  induction l as [|x l IH]; simpl; [done|].
  rewrite sort_insert_perm. by rewrite IH.
Qed.

Lemma insertion_sort_Forall (P : A → Prop) l :
  Forall P l → Forall P (insertion_sort comparefn l).
Proof. intros HP. by rewrite insertion_sort_perm. Qed.



(** For a comparison that is transitive and total on the elements,
    the result is sorted. *)
Local Abbreviation le_by := (le_by comparefn).

Lemma sort_insert_sorted (P : A → Prop) x l :
  (∀ a b, P a → P b → (0 < comparefn a b)%Z → le_by b a) →
  (∀ a b c, P a → P b → P c → le_by a b → le_by b c → le_by a c) →
  P x → Forall P l →
  StronglySorted le_by l → StronglySorted le_by (sort_insert comparefn x l).
Proof.
  intros Htot Htrans Hx HP. induction 1 as [|y l Hs IH Hall]; simpl.
  - constructor; [constructor|constructor].
  - inversion_clear HP as [|?? Hy HP'].
    destruct (0 <? comparefn x y)%Z eqn:Hgt.
    + apply Z.ltb_lt in Hgt. constructor; [by apply IH|].
      rewrite sort_insert_perm. constructor; [by apply Htot|done].
    + apply Z.ltb_ge in Hgt. constructor; [by constructor|].
      constructor; [done|].
      rewrite Forall_forall in Hall, HP'. apply Forall_forall. intros z Hz.
      apply (Htrans x y z); auto.
Qed.

Lemma insertion_sort_sorted (P : A → Prop) l :
  (∀ a b, P a → P b → (0 < comparefn a b)%Z → le_by b a) →
  (∀ a b c, P a → P b → P c → le_by a b → le_by b c → le_by a c) →
  Forall P l →
  StronglySorted le_by (insertion_sort comparefn l).
Proof.
  intros Htot Htrans. induction 1 as [|x l Hx HP IH]; simpl; [constructor|].
  apply (sort_insert_sorted P); auto. by apply insertion_sort_Forall.
Qed.

(** A sorted array is left as it is. *)
Lemma sort_insert_head x l :
  Forall (le_by x) l → sort_insert comparefn x l = x :: l.
Proof.
  destruct 1 as [|y l Hy _]; simpl; [done|].
  unfold le_by in Hy. by destruct (Z.ltb_spec 0 (comparefn x y)); [lia|].
Qed.

Lemma insertion_sort_fixpoint l :
  StronglySorted le_by l → insertion_sort comparefn l = l.
Proof.
  induction 1 as [|x l Hs IH Hall]; simpl; [done|].
  rewrite IH. by apply sort_insert_head.
Qed.
End SortFacts.

(** ** [orderBy] with the helper's iteratees is the stable sort by key *)

Section OrderByFacts.
Context `{Host}.

Lemma compareMultiple_by_key key order e1 e2 :
  decorated key e1 → decorated key e2 →
  compareMultiple e1 e2 (orders order) =
    let k := compare_by_key key order (value e1) (value e2) in
    if bool_decide (k ≠ 0%Z) then k else (index e1 - index e2)%Z.
Proof.
  unfold decorated, compareMultiple, compare_by_key, orders.
  intros -> ->. simpl.
  set (p := compareAscending (primary key (value e1)) (primary key (value e2))).
  set (i := compareAscending (id_of (value e1)) (id_of (value e2))).
  destruct (decide (p = 0%Z)) as [Hp|Hp].
  - rewrite !(bool_decide_eq_false_2 (p ≠ 0%Z)) by (intros ?; contradiction).
    destruct (decide (i = 0%Z)) as [Hi|Hi].
    + by rewrite !(bool_decide_eq_false_2 (i ≠ 0%Z)) by (intros ?; contradiction).
    + rewrite !(bool_decide_eq_true_2 (i ≠ 0%Z)) by done. lia.
  - rewrite !(bool_decide_eq_true_2 (p ≠ 0%Z)) by done.
    destruct order.
    + rewrite bool_decide_eq_true_2 by done. lia.
    + rewrite bool_decide_eq_true_2 by lia. lia.
Qed.

Lemma sort_insert_decorated key order x s :
  decorated key x → Forall (decorated key) s →
  Forall (λ e, (index x < index e)%Z) s →
  value <$> sort_insert (λ object other, compareMultiple object other (orders order)) x s
  = sort_insert (compare_by_key key order) (value x) (value <$> s).
Proof.
  intros Hx Hs Hlt. induction s as [|y s IH]; [done|].
  inversion_clear Hs as [|?? Hy Hs']. inversion_clear Hlt as [|?? Hxy Hlt'].
  simpl. rewrite (compareMultiple_by_key key order x y Hx Hy). simpl.
  destruct (decide (compare_by_key key order (value x) (value y) = 0%Z)) as [Hk|Hk].
  - rewrite bool_decide_eq_false_2 by (intros ?; contradiction).
    rewrite Hk. simpl.
    by destruct (Z.ltb_spec 0 (index x - index y)); [lia|].
  - rewrite bool_decide_eq_true_2 by done.
    destruct (0 <? compare_by_key key order (value x) (value y))%Z; [|done].
    rewrite fmap_cons. f_equal. by apply IH.
Qed.

Lemma insertion_sort_decorated key order (array : list record) (k : nat) :
  value <$> insertion_sort (λ object other, compareMultiple object other (orders order))
              (imap (λ i v, decorate key (k + i) v) array)
  = insertion_sort (compare_by_key key order) array.
Proof.
  revert k. induction array as [|v array IH]; intros k; [done|].
  simpl. rewrite (sort_insert_decorated key order).
  - simpl. f_equal.
    rewrite <- (IH (S k)). do 2 f_equal.
    apply imap_ext. intros i x _. simpl. f_equal. lia.
  - done.
  - apply insertion_sort_Forall. apply Forall_forall. intros e He.
    apply list_elem_of_lookup in He as [i Hi].
    rewrite list_lookup_imap in Hi.
    destruct (array !! i); simplify_eq/=. done.
  - apply insertion_sort_Forall. apply Forall_forall. intros e He.
    apply list_elem_of_lookup in He as [i Hi].
    rewrite list_lookup_imap in Hi.
    destruct (array !! i); simplify_eq/=. lia.
Qed.

Lemma insertion_sort_by_key key order (array : list record) :
  value <$> insertion_sort (λ object other, compareMultiple object other (orders order))
              (imap (decorate key) array)
  = insertion_sort (compare_by_key key order) array.
Proof. apply (insertion_sort_decorated key order array 0). Qed.

(** What [orderBy] hands to the engine, and what comes back. *)
Lemma orderBy_entries key order (array : list record) :
  orderBy array (iteratees key) (orders order) =
    value <$> Array_sort (λ object other, compareMultiple object other (orders order))
                (imap (decorate key) array).
Proof. done. Qed.

(** Whatever the engine, [orderBy] with the helper's iteratees is the
    sort of the records with their positions. *)
Lemma orderBy_stable_sort key order (array : list record) :
  orderBy array (iteratees key) (orders order) = stable_sort_by_key key order array.
Proof.
  rewrite orderBy_entries. unfold stable_sort_by_key.
  assert (imap (decorate key) array =
          (λ p : nat * record, decorate key p.1 p.2) <$> imap pair array) as ->
    by (by rewrite fmap_imap).
  rewrite Array_sort_natural, <- list_fmap_compose.
  rewrite (Array_sort_ext _ (compare_stably key order)).
  - apply list_fmap_ext. by intros i [n v] _.
  - intros [i a] [j b] _ _. by rewrite (compareMultiple_by_key key order).
Qed.

Lemma orderBy_perm (array : list record) its ords :
  orderBy array its ords ≡ₚ array.
Proof.
  unfold orderBy, baseOrderBy, baseSortBy.
  rewrite Array_sort_permutation, fmap_imap.
  rewrite (imap_ext _ (λ _ v, v) array) by done.
  by rewrite (imap_const id), list_fmap_id.
Qed.
End OrderByFacts.

(** ** The store is only extended *)

Section StoreFacts.
Context `{Host}.

Lemma baseOrderBy_st_spec collection its ords (σ : store) :
  ∃ result,
    σ !! result = None ∧
    baseOrderBy_st collection its ords σ =
      (result, <[result := Records (baseOrderBy (records_at σ collection) its ords)]> σ).
Proof.
  exists (fresh (dom σ)). split.
  - apply not_elem_of_dom, is_fresh.
  - unfold baseOrderBy_st, baseOrderBy, baseSortBy.
    by rewrite !alter_insert_eq.
Qed.

Lemma assertSortedByKey_st_spec array key order (σ : store) elems :
  σ !! array = Some (Records elems) →
  ∃ sorted,
    σ !! sorted = None ∧
    assertSortedByKey_st array key order σ =
      (assertSortedByKey elems key order,
       <[sorted := Records (orderBy elems (iteratees key) (orders order))]> σ).
Proof.
  intros Harr.
  destruct (baseOrderBy_st_spec array (iteratees key) (orders order) σ)
    as (sorted & Hfresh & Hrun).
  exists sorted. split; [done|].
  unfold assertSortedByKey_st. rewrite Hrun.
  assert (Hne : sorted ≠ array) by congruence.
  assert (Hin : records_at σ array = elems) by (unfold records_at; by rewrite Harr).
  rewrite Hin. cbv beta iota.
  set (expect := baseOrderBy elems (iteratees key) (orders order)).
  assert (records_at (<[sorted := Records expect]> σ) sorted = expect) as ->
    by (unfold records_at; by rewrite lookup_insert_eq).
  assert (records_at (<[sorted := Records expect]> σ) array = elems) as ->
    by (unfold records_at; by rewrite lookup_insert_ne, Harr).
  unfold assertSortedByKey, orderBy. fold expect.
  by destruct (expect_deep_equal _ _ _).
Qed.
End StoreFacts.

(** ** The helper passes when [orderBy] changes nothing *)

Section Thrown.
Context `{Host}.

Lemma assertSortedByKey_thrown array key order :
  thrown (assertSortedByKey array key order) = None ↔
  array = orderBy array (iteratees key) (orders order).
Proof.
  unfold assertSortedByKey, expect_deep_equal.
  case_bool_decide as Heq; simpl; [done|].
  split; [done|]. intros Heq'. by destruct Heq.
Qed.

End Thrown.

(** ** Strings in code unit order *)

Lemma ascii_compare_refl c : Ascii.compare c c = Eq.
Proof. unfold Ascii.compare. apply N.compare_refl. Qed.

Lemma ascii_compare_lt_trans a b c :
  Ascii.compare a b = Lt → Ascii.compare b c = Lt → Ascii.compare a c = Lt.
Proof.
  unfold Ascii.compare. rewrite !N.compare_lt_iff. lia.
Qed.

Lemma string_compare_refl s : String.compare s s = Eq.
Proof.
  induction s as [|c s IH]; simpl; [done|].
  by rewrite ascii_compare_refl.
Qed.

Lemma string_compare_eq s t : String.compare s t = Eq ↔ s = t.
Proof.
  split; [apply String.compare_eq_iff|].
  intros ->. apply string_compare_refl.
Qed.

Lemma string_compare_gt s t : String.compare s t = Gt ↔ String.compare t s = Lt.
Proof.
  rewrite (String.compare_antisym t s).
  destruct (String.compare s t); simpl; split; congruence.
Qed.

Lemma string_compare_lt_trans s t u :
  String.compare s t = Lt → String.compare t u = Lt → String.compare s u = Lt.
Proof.
  revert t u. induction s as [|a s IH]; intros [|b t] [|c u]; simpl; try done.
  destruct (Ascii.compare a b) eqn:Hab; [|clear IH|done].
  - apply Ascii.compare_eq_iff in Hab as ->.
    destruct (Ascii.compare b c); [apply IH|done|done].
  - destruct (Ascii.compare b c) eqn:Hbc; [| |done].
    + apply Ascii.compare_eq_iff in Hbc as <-. by rewrite Hab.
    + by rewrite (ascii_compare_lt_trans a b c).
Qed.

Lemma string_compare_empty s : s ≠ "" → String.compare "" s = Lt.
Proof. by destruct s. Qed.

Lemma string_ltb_compare s t : String.ltb s t = bool_decide (String.compare s t = Lt).
Proof.
  unfold String.ltb. destruct (String.compare s t); by case_bool_decide.
Qed.

Lemma toLocaleLowerCase_empty s : toLocaleLowerCase s = "" ↔ s = "".
Proof. by destruct s. Qed.

(** ** What [compareAscending] computes *)

Section Comparisons.
Context `{Host}.

Lemma strict_equals_refl v : strict_equals v v = true.
Proof. by apply bool_decide_eq_true_2. Qed.

Lemma strict_equals_ne v w : v ≠ w → strict_equals v w = false.
Proof. apply bool_decide_eq_false_2. Qed.

(** [<] and [>] never hold between a value and itself, so the short cut
    [value !== other] of [compareAscending] changes nothing. *)
Lemma js_lt_irrefl v : js_lt v v = false.
Proof.
  unfold js_lt, IsLessThan.
  destruct (ToPrimitive v) as [| | [] | n | s | | |]; simpl;
    try done; try (by rewrite Z.ltb_irrefl);
    try (by destruct (StringToNumber _); simpl; rewrite ?Z.ltb_irrefl).
  by rewrite string_ltb_compare, string_compare_refl.
Qed.

Lemma js_gt_irrefl v : js_gt v v = false.
Proof. apply js_lt_irrefl. Qed.

(** On two values that are neither [null] nor [undefined] only the two
    relational tests are left. *)
Lemma compareAscending_defined v w :
  is_nullish v = false → is_nullish w = false →
  compareAscending v w =
    if js_gt v w then 1%Z else if js_lt v w then (-1)%Z else 0%Z.
Proof.
  intros Hv Hw. unfold compareAscending, isSymbol. cbv zeta.
  rewrite !strict_equals_refl.
  rewrite (strict_equals_ne v JUndefined), (strict_equals_ne v JNull),
    (strict_equals_ne w JUndefined), (strict_equals_ne w JNull)
    by (intros ->; done).
  unfold strict_equals. case_bool_decide as Heq; simpl.
  - subst w. by rewrite js_gt_irrefl, js_lt_irrefl.
  - by destruct (js_gt v w), (js_lt v w).
Qed.

Lemma compareAscending_strings s t :
  compareAscending (JStr s) (JStr t) = sign (String.compare s t).
Proof.
  rewrite compareAscending_defined by done.
  unfold js_gt, js_lt, IsLessThan. simpl.
  rewrite !string_ltb_compare.
  destruct (String.compare s t) eqn:Hc; simpl.
  - apply string_compare_eq in Hc as ->.
    by rewrite string_compare_refl.
  - rewrite (bool_decide_eq_false_2 (String.compare t s = Lt)); [done|].
    rewrite <- string_compare_gt. congruence.
  - rewrite (bool_decide_eq_true_2 (String.compare t s = Lt)); [done|].
    by apply string_compare_gt.
Qed.

Lemma numeric_sign a b :
  (if (b <? a)%Z then 1 else if (a <? b)%Z then -1 else 0)%Z = sign (a ?= b)%Z.
Proof.
  destruct (Z.compare_spec a b); simpl.
  - subst. by rewrite Z.ltb_irrefl.
  - destruct (Z.ltb_spec b a); [lia|]. destruct (Z.ltb_spec a b); [done|lia].
  - destruct (Z.ltb_spec b a); [done|lia].
Qed.

Lemma compareAscending_numbers a b :
  compareAscending (JNum a) (JNum b) = sign (a ?= b)%Z.
Proof.
  rewrite compareAscending_defined by done.
  unfold js_gt, js_lt, IsLessThan. simpl. apply numeric_sign.
Qed.

(** Two primitives that are not both strings are compared as numbers,
    and tie when one of them is NaN as a number. *)
Lemma compareAscending_coerced v w :
  is_nullish v = false → is_nullish w = false →
  ToPrimitive v = v → ToPrimitive w = w →
  (∀ s t, v = JStr s → w = JStr t → False) →
  compareAscending v w = coerced v w.
Proof.
  intros Hv Hw Hpv Hpw Hmixed.
  rewrite compareAscending_defined by done.
  unfold js_gt, js_lt, IsLessThan, coerced. rewrite Hpv, Hpw.
  destruct v as [| | bv | nv | sv | | |], w as [| | bw | nw | sw | | |];
    try done; try (by destruct (Hmixed _ _ eq_refl eq_refl));
    cbn [ToNumber];
    repeat match goal with
    | |- context [if ?b then Some 1%Z else Some 0%Z] => destruct b
    | |- context [match ?b with true => Some 1%Z | false => Some 0%Z end] =>
        destruct b
    end;
    try (destruct (StringToNumber _); cbn [default]);
    try apply numeric_sign; done.
Qed.

(** An array, a plain object or a function takes part through its string
    form: against a string it is compared as a string. *)
Lemma compareAscending_string_form s v :
  is_nullish v = false →
  compareAscending (JStr s) v =
    match ToPrimitive v with
    | JStr t => sign (String.compare s t)
    | p => coerced (JStr s) p
    end.
Proof.
  intros Hv. destruct v as [| | b | n | t | elems | fields | name]; try done.
  - by apply compareAscending_coerced.
  - by apply compareAscending_coerced.
  - apply compareAscending_strings.
  - unfold ToPrimitive.
    rewrite <- (compareAscending_strings s (ToString (JArr elems))).
    by rewrite !compareAscending_defined.
  - unfold ToPrimitive.
    rewrite <- (compareAscending_strings s (ToString (JObj fields))).
    by rewrite !compareAscending_defined.
  - unfold ToPrimitive.
    rewrite <- (compareAscending_strings s (ToString (JBuiltin name))).
    by rewrite !compareAscending_defined.
Qed.

(** [<] never holds both ways, whatever the two values are. *)
Lemma js_lt_asym v w : js_lt v w = true → js_lt w v = false.
Proof.
  unfold js_lt, IsLessThan.
  destruct (ToPrimitive v) as [| | bv | nv | sv | | |],
           (ToPrimitive w) as [| | bw | nw | sw | | |];
    cbn [ToNumber];
    repeat match goal with
    | |- context [if ?b then Some 1%Z else Some 0%Z] => destruct b
    | |- context [match ?b with true => Some 1%Z | false => Some 0%Z end] =>
        destruct b
    | |- context [StringToNumber ?s] => destruct (StringToNumber s)
    end;
    cbn [default]; try done;
    try (intros Hlt%Z.ltb_lt; apply Z.ltb_ge; lia).
  rewrite !string_ltb_compare. intros Hlt%bool_decide_eq_true.
  apply bool_decide_eq_false. rewrite <- string_compare_gt. congruence.
Qed.

Lemma compareAscending_refl v : compareAscending v v = 0%Z.
Proof. unfold compareAscending. by rewrite strict_equals_refl. Qed.

(** Swapping two values that are neither [null] nor [undefined] swaps
    the sign of the comparison. *)
Lemma compareAscending_antisym v w :
  is_nullish v = false → is_nullish w = false →
  compareAscending w v = (- compareAscending v w)%Z.
Proof.
  intros Hv Hw. rewrite !compareAscending_defined by done.
  change (js_gt w v) with (js_lt v w). change (js_gt v w) with (js_lt w v).
  destruct (js_lt v w) eqn:Hvw.
  - by rewrite (js_lt_asym v w Hvw).
  - by destruct (js_lt w v).
Qed.
End Comparisons.

(** ** The expected order does not depend on the engine

    Neither criterion is ever [null] or [undefined], so the comparison of
    two records swaps its sign with its arguments.  Where it is
    transitive on the records of an array as well, [compareMultiple] is a
    strict total order of the entries [orderBy] builds, which leaves one
    arrangement of them in order: the one the insertion sort by key
    gives, whatever sort the engine runs.  Two records are always such an
    array. *)

Section EngineFacts.
Context `{Host}.

Lemma norm_defined v : is_nullish (norm v) = false.
Proof. by destruct v. Qed.

Lemma id_of_defined o : is_nullish (id_of o) = false.
Proof. unfold id_of, nullish_coalesce. by destruct (get o "id"). Qed.

Lemma compare_by_key_refl key order a : compare_by_key key order a a = 0%Z.
Proof.
  unfold compare_by_key. rewrite !compareAscending_refl.
  by rewrite bool_decide_eq_false_2 by (intros ?; contradiction).
Qed.

Lemma compare_by_key_antisym key order a b :
  compare_by_key key order b a = (- compare_by_key key order a b)%Z.
Proof.
  unfold compare_by_key.
  rewrite (compareAscending_antisym (primary key a) (primary key b))
    by apply norm_defined.
  rewrite (compareAscending_antisym (id_of a) (id_of b))
    by apply id_of_defined.
  repeat case_bool_decide; destruct order; lia.
Qed.

Lemma compare_by_key_tie_trans key order array a b c :
  transitive_on (compare_by_key key order) array →
  a ∈ array → b ∈ array → c ∈ array →
  (compare_by_key key order a b ≤ 0)%Z →
  (compare_by_key key order b c ≤ 0)%Z →
  compare_by_key key order a c = 0%Z →
  compare_by_key key order a b = 0%Z ∧ compare_by_key key order b c = 0%Z.
Proof.
  intros Htrans Ha Hb Hc Hab Hbc Hac.
  assert (Hca : compare_by_key key order c a = 0%Z)
    by (rewrite (compare_by_key_antisym key order a c); lia).
  pose proof (Htrans c a b Hc Ha Hb) as Hcb.
  pose proof (Htrans b c a Hb Hc Ha) as Hba.
  unfold le_by in Hcb, Hba.
  rewrite (compare_by_key_antisym key order b c) in Hcb.
  rewrite (compare_by_key_antisym key order a b) in Hba.
  lia.
Qed.

Lemma elem_of_decorate key array e :
  e ∈ imap (decorate key) array →
  ∃ i v, array !! i = Some v ∧ e = decorate key i v.
Proof.
  intros He. apply list_elem_of_lookup in He as [i Hi].
  rewrite list_lookup_imap in Hi.
  destruct (array !! i) as [v|] eqn:Hv; simplify_eq/=. eauto.
Qed.

Lemma orderBy_insertion key order array :
  transitive_on (compare_by_key key order) array →
  orderBy array (iteratees key) (orders order) =
    insertion_sort (compare_by_key key order) array.
Proof.
  intros Htrans. rewrite orderBy_entries, <- insertion_sort_by_key.
  set (comparer := λ object other, compareMultiple object other (orders order)).
  set (entries := imap (decorate key) array).
  assert (Hin : ∀ e, e ∈ entries → decorated key e ∧ value e ∈ array).
  { intros e He. apply elem_of_decorate in He as (i & v & Hv & ->).
    split; [done|]. by eapply list_elem_of_lookup_2. }
  assert (Hcmp : ∀ a b, a ∈ entries → b ∈ entries →
            comparer a b =
              if bool_decide (compare_by_key key order (value a) (value b) ≠ 0%Z)
              then compare_by_key key order (value a) (value b)
              else (index a - index b)%Z).
  { intros a b Ha Hb. apply compareMultiple_by_key; by apply Hin. }
  assert (Hanti : ∀ a b, a ∈ entries → b ∈ entries →
            comparer b a = (- comparer a b)%Z).
  { intros a b Ha Hb. rewrite !Hcmp by done.
    rewrite (compare_by_key_antisym key order (value a) (value b)).
    repeat case_bool_decide; lia. }
  assert (Hle : transitive_on comparer entries).
  { intros a b c Ha Hb Hc. unfold le_by. rewrite !Hcmp by done.
    destruct (Hin a Ha) as [_ Hpa], (Hin b Hb) as [_ Hpb], (Hin c Hc) as [_ Hpc].
    pose proof (Htrans _ _ _ Hpa Hpb Hpc) as Hkey.
    pose proof (compare_by_key_tie_trans key order array _ _ _ Htrans Hpa Hpb Hpc)
      as Htie.
    unfold le_by in Hkey. repeat case_bool_decide; lia. }
  f_equal.
  apply (StronglySorted_unique_strong (le_by comparer)).
  - intros a b Ha Hb. rewrite Array_sort_permutation in Ha.
    rewrite insertion_sort_perm in Hb.
    unfold le_by. rewrite (Hanti a b) by done. rewrite !Hcmp by done.
    intros Hab Hba.
    assert (Hidx : index a = index b) by (repeat case_bool_decide; lia).
    apply elem_of_decorate in Ha as (i & v & Hv & ->).
    apply elem_of_decorate in Hb as (j & w & Hw & ->).
    simpl in Hidx. apply Nat2Z.inj in Hidx as ->. congruence.
  - apply Array_sort_in_order. split; [|done].
    intros a b Ha Hb. rewrite (Hanti a b) by done. apply Z.sgn_opp.
  - apply (insertion_sort_sorted _ (λ e, e ∈ entries)).
    + intros a b Ha Hb. unfold le_by. rewrite (Hanti a b) by done. lia.
    + done.
    + by apply Forall_forall.
  - by rewrite Array_sort_permutation, insertion_sort_perm.
Qed.

Lemma transitive_on_two key order a b :
  transitive_on (compare_by_key key order) [a; b].
Proof.
  intros x y z Hx Hy Hz. unfold le_by. set_unfold.
  destruct Hx as [->|[->|[]]], Hy as [->|[->|[]]], Hz as [->|[->|[]]];
    rewrite ?compare_by_key_refl; intros; done || lia.
Qed.


(** What [orderBy] makes of two records. *)
Lemma orderBy_two key order a b :
  orderBy [a; b] (iteratees key) (orders order) =
    if (0 <? compare_by_key key order a b)%Z then [b; a] else [a; b].
Proof. rewrite orderBy_insertion by apply transitive_on_two. done. Qed.

End EngineFacts.

(** ** Records with textual keys and numeric ids

    On such records the comparison of the helper is the lexicographic
    order of (lower-cased text, id), a total preorder, and the helper
    passes exactly the arrays that are in that order. *)

Section PlainFacts.
Context `{Host}.

Lemma plain_inv key o :
  plain key o → ∃ s n, primary key o = JStr s ∧ id_of o = JNum n.
Proof.
  unfold plain. destruct (primary key o), (id_of o); try done. eauto.
Qed.

Lemma compare_by_key_plain key order a b sa na sb nb :
  primary key a = JStr sa → id_of a = JNum na →
  primary key b = JStr sb → id_of b = JNum nb →
  compare_by_key key order a b =
    match String.compare sa sb with
    | Eq => sign (na ?= nb)%Z
    | c => match order with asc => sign c | desc => (- sign c)%Z end
    end.
Proof.
  intros Ha Hia Hb Hib. unfold compare_by_key.
  rewrite Ha, Hia, Hb, Hib, compareAscending_strings, compareAscending_numbers.
  by destruct (String.compare sa sb), order.
Qed.

Lemma le_by_key_total key order a b :
  plain key a → plain key b →
  (0 < compare_by_key key order a b)%Z →
  le_by (compare_by_key key order) b a.
Proof.
  intros (sa & na & Ha & Hia)%plain_inv (sb & nb & Hb & Hib)%plain_inv. unfold le_by.
  rewrite (compare_by_key_plain key order a b sa na sb nb) by done.
  rewrite (compare_by_key_plain key order b a sb nb sa na) by done.
  rewrite (String.compare_antisym sb sa), (Z.compare_antisym na nb).
  destruct (String.compare sa sb), (na ?= nb)%Z, order; simpl; lia.
Qed.

Lemma le_by_key_trans key order a b c :
  plain key a → plain key b → plain key c →
  le_by (compare_by_key key order) a b →
  le_by (compare_by_key key order) b c →
  le_by (compare_by_key key order) a c.
Proof.
  intros (sa & na & Ha & Hia)%plain_inv (sb & nb & Hb & Hib)%plain_inv
    (sc & nc & Hc & Hic)%plain_inv. unfold le_by.
  rewrite (compare_by_key_plain key order a b sa na sb nb) by done.
  rewrite (compare_by_key_plain key order b c sb nb sc nc) by done.
  rewrite (compare_by_key_plain key order a c sa na sc nc) by done.
  destruct (String.compare sa sb) eqn:Hab.
  - apply string_compare_eq in Hab as ->.
    destruct (String.compare sb sc) eqn:Hbc; [|done|done].
    destruct (Z.compare_spec na nb), (Z.compare_spec nb nc),
      (Z.compare_spec na nc); simpl; lia.
  - destruct (String.compare sb sc) eqn:Hbc.
    + apply string_compare_eq in Hbc as <-. by rewrite Hab.
    + by rewrite (string_compare_lt_trans sa sb sc).
    + destruct order; simpl; lia.
  - destruct (String.compare sb sc) eqn:Hbc.
    + apply string_compare_eq in Hbc as <-. by rewrite Hab.
    + destruct order; simpl; lia.
    + apply string_compare_gt in Hab, Hbc.
      assert (String.compare sa sc = Gt) as ->; [|done].
      apply string_compare_gt. by apply (string_compare_lt_trans sc sb sa).
Qed.

Lemma transitive_on_plain key order array :
  Forall (plain key) array → transitive_on (compare_by_key key order) array.
Proof.
  rewrite Forall_forall. intros Hplain a b c Ha Hb Hc.
  apply le_by_key_trans; by apply Hplain.
Qed.

Lemma orderBy_plain key order array :
  Forall (plain key) array →
  orderBy array (iteratees key) (orders order) =
    insertion_sort (compare_by_key key order) array.
Proof. intros Hplain. by apply orderBy_insertion, transitive_on_plain. Qed.

Lemma stable_sort_by_key_sorted key order array :
  Forall (plain key) array →
  StronglySorted (le_by (compare_by_key key order))
    (stable_sort_by_key key order array).
Proof.
  intros Hplain. rewrite <- orderBy_stable_sort, orderBy_plain by done.
  apply (insertion_sort_sorted _ (plain key)); [| |done].
  - apply le_by_key_total.
  - apply le_by_key_trans.
Qed.

(** On such arrays the helper passes exactly when the array is in order. *)
Lemma assertSortedByKey_plain key order array :
  Forall (plain key) array →
  thrown (assertSortedByKey array key order) = None ↔
  StronglySorted (le_by (compare_by_key key order)) array.
Proof.
  intros Hplain. rewrite assertSortedByKey_thrown. split.
  - intros ->. rewrite orderBy_stable_sort. by apply stable_sort_by_key_sorted.
  - intros Hs. rewrite orderBy_plain by done.
    symmetry. by apply insertion_sort_fixpoint.
Qed.

Lemma StronglySorted_lookup_lt {A} (R : A → A → Prop) l i j x y :
  StronglySorted R l → l !! i = Some x → l !! j = Some y → i < j → R x y.
Proof.
  intros Hs. revert i j. induction Hs as [|z l Hs IH Hall]; intros i j Hi Hj Hlt.
  - done.
  - destruct i as [|i], j as [|j]; try lia; simpl in *.
    + simplify_eq. rewrite Forall_forall in Hall. apply Hall.
      by eapply list_elem_of_lookup_2.
    + apply (IH i j); [done|done|lia].
Qed.

(** Two records the comparison tells apart stand in that order in the
    expected order of every such array. *)
Lemma precedes_in_order key order array a b :
  Forall (plain key) array →
  (compare_by_key key order a b < 0)%Z →
  (0 < compare_by_key key order b a)%Z →
  precedes a b (orderBy array (iteratees key) (orders order)).
Proof.
  intros Hplain Hab Hba i j Hi Hj.
  rewrite orderBy_stable_sort in Hi, Hj.
  pose proof (stable_sort_by_key_sorted key order array Hplain) as Hsorted.
  destruct (Nat.lt_trichotomy i j) as [Hlt|[->|Hgt]]; [done| |].
  - assert (a = b) as -> by congruence. lia.
  - pose proof (StronglySorted_lookup_lt _ _ _ _ _ _ Hsorted Hj Hi Hgt) as Hle.
    unfold le_by in Hle. lia.
Qed.
End PlainFacts.

(** ** The verdict of the helper *)

Section VerdictOfHelper.
Context `{Host}.

End VerdictOfHelper.


(** ** Normalisation *)

Section Normalisation.
Context `{Host}.

Lemma primary_nullish key a :
  is_nullish (get a key) = true → primary key a = JStr "".
Proof. unfold primary, norm. by intros ->. Qed.

Lemma primary_string key b s :
  get b key = JStr s → primary key b = JStr (toLocaleLowerCase s).
Proof. unfold primary, norm. by intros ->. Qed.

Lemma compare_by_key_null_string key a b s :
  is_nullish (get a key) = true → get b key = JStr s → s ≠ "" →
  compare_by_key key asc a b = (-1)%Z ∧ compare_by_key key asc b a = 1%Z.
Proof.
  intros Ha Hb Hs. unfold compare_by_key.
  rewrite (primary_nullish key a Ha), (primary_string key b s Hb).
  rewrite !compareAscending_strings.
  assert (Hlow : toLocaleLowerCase s ≠ "") by by rewrite toLocaleLowerCase_empty.
  assert (Hgt : String.compare (toLocaleLowerCase s) "" = Gt)
    by by apply string_compare_gt, string_compare_empty.
  by rewrite Hgt, (string_compare_empty _ Hlow).
Qed.

Lemma get_absent (o : record) key :
  o !! key = None → get o key = default JUndefined (inherited key).
Proof. unfold get. by intros ->. Qed.

(** C2.  [norm] maps [null] and [undefined] to the empty string, a
    string to its lower-cased form, and leaves every other value (a
    number, a boolean) as it is.  A field absent from the record reads as
    [undefined], and so has the primary value [""], under every key but
    the names of the properties of [Object.prototype]: under those the
    record inherits a value, which [norm] leaves as it is.  A record
    whose sort field reads as [null] or [undefined] has the primary value
    [""], compares before every record whose field is a non-empty string
    in ascending order, is put before it by [orderBy] whichever way round
    the two come, and stands before it in the expected order of every
    array of records with textual keys and numeric ids. *)
Theorem norm_cases_and_null_first (key : string) :
  norm JNull = JStr "" ∧
  norm JUndefined = JStr "" ∧
  (∀ o : record, o !! key = None → inherited key = None →
     get o key = JUndefined ∧ primary key o = JStr "") ∧
  (∀ o : record, o !! key = None → key ∈ Object_prototype →
     get o key = JBuiltin key ∧ primary key o = JBuiltin key) ∧
  (∀ s, norm (JStr s) = JStr (toLocaleLowerCase s)) ∧
  (∀ n, norm (JNum n) = JNum n) ∧
  (∀ b, norm (JBool b) = JBool b) ∧
  (∀ v, is_nullish v = false → (∀ s, v ≠ JStr s) → norm v = v) ∧
  (∀ (a b : record) (s : string),
     is_nullish (get a key) = true → get b key = JStr s → s ≠ "" →
     primary key a = JStr "" ∧
     (compare_by_key key asc a b < 0)%Z ∧
     (0 < compare_by_key key asc b a)%Z ∧
     orderBy [b; a] (iteratees key) (orders asc) = [a; b] ∧
     orderBy [a; b] (iteratees key) (orders asc) = [a; b] ∧
     (∀ array, Forall (plain key) array →
        precedes a b (orderBy array (iteratees key) (orders asc)))).
Proof.
  split; [done|]. split; [done|]. split; [|split].
  - intros o Ho Hkey. unfold primary. rewrite (get_absent o key Ho), Hkey. done.
  - intros o Ho Hkey. unfold primary. rewrite (get_absent o key Ho).
    unfold inherited. by rewrite bool_decide_eq_true_2.
  - repeat split; try done.
    + intros v Hv Hs. unfold norm. rewrite Hv. destruct v; try done.
      by destruct (Hs s).
    + by apply primary_nullish.
    + by destruct (compare_by_key_null_string key a b s) as [-> _].
    + by destruct (compare_by_key_null_string key a b s) as [_ ->].
    + rewrite orderBy_two.
      by destruct (compare_by_key_null_string key a b s) as [_ ->].
    + rewrite orderBy_two.
      by destruct (compare_by_key_null_string key a b s) as [-> _].
    + intros array Hplain.
      destruct (compare_by_key_null_string key a b s) as [Hab Hba]; [done..|].
      apply precedes_in_order; [done|lia|lia].
Qed.
End Normalisation.

Lemma norm_cases_and_null_first_witness :
  precedes {[ "title" := JNull ]} (titled "Apple")
    (orderBy (H := integer_host)
       [titled "Apple"; {[ "title" := JNull ]}] (iteratees "title") (orders asc)).
Proof.
  destruct (norm_cases_and_null_first (H := integer_host) "title")
    as (_ & _ & _ & _ & _ & _ & _ & _ & Hfirst).
  destruct (Hfirst {[ "title" := JNull ]} (titled "Apple") "Apple")
    as (_ & _ & _ & _ & _ & Hprecedes);
    [reflexivity | reflexivity | discriminate |].
  apply Hprecedes.
  repeat constructor; vm_compute; eauto.
Defined.

(** C2, where it fails.  The record [{id: 2}] has no field
    ["constructor"], and what [norm] is given for it is not [undefined]
    but the function the record inherits: its primary value is that
    function, not the empty string, and the record does not sort before
    one whose field is the string ["a"], for
    [[{constructor: "a", id: 1}, {id: 2}]] passes in ascending order. *)
Lemma absent_field_reads_inherited_value :
  ({[ "id" := JNum 2 ]} : record) !! "constructor" = None ∧
  primary "constructor" {[ "id" := JNum 2 ]} ≠ JStr "" ∧
  thrown (assertSortedByKey (H := integer_host)
            [ {[ "constructor" := JStr "a"; "id" := JNum 1 ]};
              {[ "id" := JNum 2 ]} ] "constructor" asc) = None.
Proof.
  split; [reflexivity|]. split; [|by vm_compute].
  vm_compute. intros Heq. discriminate Heq.
Qed.

(** ** The tie-break *)

Section TieBreak.
Context `{Host}.

Lemma compare_by_key_tie key order a b :
  primary key a = primary key b →
  compare_by_key key order a b = compareAscending (id_of a) (id_of b).
Proof.
  intros Heq. unfold compare_by_key. rewrite Heq, compareAscending_refl.
  by rewrite bool_decide_eq_false_2 by (intros ?; contradiction).
Qed.

Lemma product_fields id title :
  get (product id title) "title" = JStr title ∧
  get (product id title) "id" = JNum id.
Proof. unfold get, product. by simplify_map_eq. Qed.

(** C3.  Two records with equal normalised primary values are compared
    by their [id]s alone, a missing (or [null]) [id] counting as 0, and
    in the same way whether the primary direction is [asc] or [desc]:
    [orderBy] swaps the two exactly when the first [id] compares greater,
    and with numeric ids the record with the smaller id stands first in
    the expected order of every array of records with textual keys and
    numeric ids.  Two records with the same title and the ids 5 then 3
    fail the ascending assertion by title, and pass as 3 then 5. *)
Theorem tie_break_by_id_ascending (key : string) (order : direction) :
  (∀ o : record, o !! "id" = None → id_of o = JNum 0) ∧
  (∀ o : record, o !! "id" = Some JNull → id_of o = JNum 0) ∧
  (∀ a b : record, primary key a = primary key b →
     compare_by_key key order a b = compareAscending (id_of a) (id_of b) ∧
     compare_by_key key order a b = compare_by_key key asc a b ∧
     orderBy [a; b] (iteratees key) (orders order) =
       (if (0 <? compareAscending (id_of a) (id_of b))%Z then [b; a] else [a; b]) ∧
     (∀ m n, id_of a = JNum m → id_of b = JNum n → (m < n)%Z →
        orderBy [a; b] (iteratees key) (orders order) = [a; b] ∧
        orderBy [b; a] (iteratees key) (orders order) = [a; b] ∧
        (∀ array, Forall (plain key) array →
           precedes a b (orderBy array (iteratees key) (orders order))))) ∧
  (∀ title,
     thrown (assertSortedByKey [product 5 title; product 3 title] "title" asc) ≠ None ∧
     thrown (assertSortedByKey [product 3 title; product 5 title] "title" asc) = None).
Proof.
  split; [|split; [|split]].
  - intros o Ho. unfold id_of, get. by rewrite Ho.
  - intros o Ho. unfold id_of, get. by rewrite Ho.
  - intros a b Heq.
    assert (Hba : compare_by_key key order b a = compareAscending (id_of b) (id_of a))
      by by apply compare_by_key_tie.
    split; [by apply compare_by_key_tie|].
    split; [by rewrite !compare_by_key_tie|].
    split.
    + rewrite orderBy_two. by rewrite compare_by_key_tie.
    + intros m n Hm Hn Hlt.
      assert (Hab' : compare_by_key key order a b = (-1)%Z).
      { rewrite compare_by_key_tie, Hm, Hn, compareAscending_numbers by done.
        by rewrite (proj2 (Z.compare_lt_iff m n)). }
      assert (Hba' : compare_by_key key order b a = 1%Z).
      { rewrite Hba, Hm, Hn, compareAscending_numbers.
        by rewrite (proj2 (Z.compare_gt_iff n m)) by lia. }
      rewrite !orderBy_two, Hab', Hba'. simpl. split; [done|]. split; [done|].
      intros array Hplain. apply precedes_in_order; [done|lia|lia].
  - intros title.
    destruct (product_fields 5 title) as [Ht5 Hi5].
    destruct (product_fields 3 title) as [Ht3 Hi3].
    assert (Hp : primary "title" (product 5 title) = primary "title" (product 3 title))
      by (unfold primary; by rewrite Ht5, Ht3).
    assert (H53 : compare_by_key "title" asc (product 5 title) (product 3 title) = 1%Z).
    { rewrite compare_by_key_tie by done. unfold id_of. by rewrite Hi5, Hi3. }
    assert (H35 : compare_by_key "title" asc (product 3 title) (product 5 title) = (-1)%Z).
    { rewrite compare_by_key_tie by done. unfold id_of. by rewrite Hi5, Hi3. }
    rewrite !assertSortedByKey_thrown, !orderBy_two, H53, H35. simpl.
    split; [|done].
    intros Heq.
    assert (Hid : get (product 5 title) "id" = get (product 3 title) "id")
      by exact (f_equal (λ l, get (default ∅ (head l)) "id") Heq).
    rewrite Hi5, Hi3 in Hid. done.
Qed.
End TieBreak.

Lemma tie_break_by_id_ascending_witness :
  orderBy (H := integer_host) [product 5 "Mug"; product 3 "mug"]
    (iteratees "title") (orders desc)
  = [product 3 "mug"; product 5 "Mug"].
Proof.
  destruct (tie_break_by_id_ascending (H := integer_host) "title" desc)
    as (_ & _ & Htie & _).
  destruct (Htie (product 3 "mug") (product 5 "Mug")) as (_ & _ & _ & Hnum);
    [reflexivity|].
  destruct (Hnum 3%Z 5%Z) as (_ & Hswap & _); [reflexivity | reflexivity | lia |].
  exact Hswap.
Defined.

(** ** The failure and its report *)

Lemma findIndex_from_spec {A} (p : A → nat → bool) (i : nat) (l : list A) :
  (findIndex_from p i l = (-1)%Z ∧
   ∀ k x, l !! k = Some x → p x (i + k) = false) ∨
  (∃ k x, findIndex_from p i l = Z.of_nat (i + k) ∧
          l !! k = Some x ∧ p x (i + k) = true ∧
          ∀ j y, j < k → l !! j = Some y → p y (i + j) = false).
Proof.
  revert i. induction l as [|x l IH]; intros i; simpl.
  - left. split; [done|]. intros k y Hk. by rewrite lookup_nil in Hk.
  - destruct (p x i) eqn:Hp.
    + right. exists 0, x. rewrite Nat.add_0_r. repeat split; try done.
      intros j y Hj. lia.
    + destruct (IH (S i)) as [[Hnone Hall]|(k & y & Hres & Hk & Hpk & Hbefore)].
      * left. split; [done|]. intros [|k] y Hk; simpl in Hk.
        -- simplify_eq. by rewrite Nat.add_0_r.
        -- rewrite Nat.add_succ_r. by apply Hall.
      * right. exists (S k), y. rewrite Nat.add_succ_r. repeat split; try done.
        intros [|j] z Hj Hz; simpl in Hz.
        -- simplify_eq. by rewrite Nat.add_0_r.
        -- rewrite Nat.add_succ_r. apply Hbefore; [lia|done].
Qed.

Lemma at_index_Some (l : list record) i x :
  l !! i = Some x → at_index l i = JObj x.
Proof. unfold at_index. by intros ->. Qed.

Lemma at_index_inv (l : list record) i x :
  at_index l i = JObj x → l !! i = Some x.
Proof. unfold at_index. destruct (l !! i); simpl; congruence. Qed.

Section Report.
Context `{Host}.

Lemma orderBy_length array key order :
  length (orderBy array (iteratees key) (orders order)) = length array.
Proof. by rewrite orderBy_perm. Qed.

(** C4.  When the recomputed order differs from the input, the helper
    throws the assertion error of the comparison, and logs one entry: it
    names the lowest index at which the input element and the expected
    element differ, and carries the expected and the actual element at
    that index.  The [catch] block rethrows the error whatever index the
    scan returned, also when it returned -1 (nothing is logged then). *)
Theorem mismatch_is_raised_and_located (array : list record) (key : string)
    (order : direction) :
  let sorted := orderBy array (iteratees key) (orders order) in
  (array ≠ sorted →
   ∃ i : nat,
     i < length array ∧
     at_index array i ≠ at_index sorted i ∧
     (∀ j, j < i → at_index array j = at_index sorted j) ∧
     assertSortedByKey array key order =
       {| logged :=
            [ {| name := "Unordered Item";
                 message := "Break at index " +:+ NumberToString (Z.of_nat i)
                            +:+ " for key '" +:+ key +:+ "'";
                 props := {| expected := at_index sorted i;
                             actual := at_index array i;
                             key := key;
                             order := order |} |} ];
          thrown :=
            Some (AssertionError
                    ("Array should be sorted by '" +:+ key +:+ "' in "
                     +:+ direction_name order
                     +:+ " order (case-insensitive for strings)")) |}) ∧
  (∀ err firstMismatchIndex,
     thrown (report_mismatch array sorted key order err firstMismatchIndex) = Some err) ∧
  (∀ err firstMismatchIndex, (firstMismatchIndex < 0)%Z →
     logged (report_mismatch array sorted key order err firstMismatchIndex) = []).
Proof.
  intros sorted. split; [|split].
  - intros Hne. unfold assertSortedByKey, expect_deep_equal. fold sorted.
    rewrite bool_decide_eq_false_2 by done.
    destruct (findIndex_from_spec
                (λ item i, negb (isEqual (JObj item) (at_index sorted i))) 0 array)
      as [[_ Hall]|(i & x & Hres & Hi & Hpi & Hbefore)].
    + destruct Hne. apply list_eq. intros k.
      destruct (array !! k) as [x|] eqn:Hk.
      * specialize (Hall k x Hk). simpl in Hall.
        apply negb_false_iff, bool_decide_eq_true_1 in Hall.
        symmetry. by apply at_index_inv.
      * symmetry. apply lookup_ge_None. unfold sorted.
        rewrite orderBy_length. by apply lookup_ge_None.
    + simpl in Hres, Hpi, Hbefore. exists i.
      apply negb_true_iff, bool_decide_eq_false_1 in Hpi.
      split; [by eapply lookup_lt_Some|].
      split; [by rewrite (at_index_Some array i x)|].
      split.
      * intros j Hj.
        destruct (lookup_lt_is_Some_2 array j) as [y Hy];
          [apply lookup_lt_Some in Hi; lia|].
        specialize (Hbefore j y Hj Hy).
        apply negb_false_iff, bool_decide_eq_true_1 in Hbefore.
        by rewrite (at_index_Some array j y).
      * unfold findIndex. rewrite Hres. unfold report_mismatch.
        rewrite (proj2 (Z.leb_le 0 (Z.of_nat i))) by lia.
        by rewrite Nat2Z.id.
  - done.
  - intros err idx Hneg. unfold report_mismatch. simpl.
    by rewrite (proj2 (Z.leb_gt 0 idx)).
Qed.
End Report.

Lemma mismatch_is_raised_and_located_witness :
  ∃ i : nat,
    i < 2 ∧
    thrown (assertSortedByKey (H := integer_host)
              [product 1 "Zeta"; product 2 "alpha"] "title" asc)
    = Some (AssertionError
              "Array should be sorted by 'title' in asc order (case-insensitive for strings)").
Proof.
  destruct (mismatch_is_raised_and_located (H := integer_host)
              [product 1 "Zeta"; product 2 "alpha"] "title" asc) as [Hraised _].
  destruct Hraised as (i & Hi & _ & _ & Hrun); [by vm_compute|].
  exists i. split; [exact Hi|]. by rewrite Hrun.
Defined.

(** ** Sort fields of mixed types *)

Section Mixed.
Context `{Host}.



End Mixed.


(** ** The scenarios of the specification *)

Section Scenarios.
Context `{Host}.

(** C6.  On [[{id:1,title:"Zeta"},{id:2,title:"alpha"}]] by ["title"]
    ascending the helper fails and reports the break at index 0, with the
    record of "alpha" expected and the record of "Zeta" found there.
    [[{title:"Banana"},{title:"apple"}]] fails the ascending assertion by
    title, and [[{title:"apple"},{title:"Banana"}]] passes it. *)
Theorem zeta_alpha_fails_at_index_0 :
  assertSortedByKey [product 1 "Zeta"; product 2 "alpha"] "title" asc =
    {| logged :=
         [ {| name := "Unordered Item";
              message := "Break at index 0 for key 'title'";
              props := {| expected := JObj (product 2 "alpha");
                          actual := JObj (product 1 "Zeta");
                          key := "title";
                          order := asc |} |} ];
       thrown := Some (not_sorted "title" asc) |} ∧
  thrown (assertSortedByKey [titled "Banana"; titled "apple"] "title" asc) =
    Some (not_sorted "title" asc) ∧
  assertSortedByKey [titled "apple"; titled "Banana"] "title" asc =
    {| logged := []; thrown := None |}.
Proof. unfold assertSortedByKey. rewrite !orderBy_two. by vm_compute. Qed.
End Scenarios.

(** ** The token cache *)

Lemma truthy_Some s : s ≠ "" → truthy (Some s) = true.
Proof. intros Hs. by apply bool_decide_eq_true_2. Qed.

(** C7.  With no access token cached [getCurrentUser] throws its error,
    and with no refresh token cached [refreshSession] called without a
    token throws its error.  In both cases the world is left as it was:
    no request has been issued (the list of requests is the same) and the
    command is over with that error. *)
Theorem missing_credential_raised_before_request
    (server : request → response jsval)
    (server' : request → response session_body)
    (expiresInMins : option Z) (w : world) :
  (accessToken w = None →
     getCurrentUser server w = (Throw no_access_token, w)) ∧
  (refreshToken w = None →
     refreshSession server' None expiresInMins w = (Throw no_refresh_token, w)) ∧
  getCurrentUser server initial = (Throw no_access_token, initial) ∧
  refreshSession server' None expiresInMins initial = (Throw no_refresh_token, initial).
Proof.
  repeat split.
  - intros Ha. unfold getCurrentUser, mbind, cmd_bind, read. by rewrite Ha.
  - intros Hr. unfold refreshSession, mbind, cmd_bind, read. by rewrite Hr.
Qed.

Lemma missing_credential_raised_before_request_witness :
  getCurrentUser (λ _, {| status := 200; resp_body := JNull |}) initial
  = (Throw no_access_token, initial) ∧
  requests (refreshSession (grants "a" "r") None None initial).2 = [].
Proof.
  destruct (missing_credential_raised_before_request
              (λ _, {| status := 200; resp_body := JNull |})
              (grants "a" "r") None initial) as (Hget & Hrefresh & _).
  split.
  - apply Hget. reflexivity.
  - rewrite Hrefresh; reflexivity.
Defined.

Lemma refreshSession_falsy_provided server provided expiresInMins w :
  truthy provided = false →
  refreshSession server provided expiresInMins w =
  refreshSession server None expiresInMins w.
Proof.
  intros Hp. unfold refreshSession, js_or. by rewrite Hp.
Qed.

Lemma refreshSession_sends server provided expiresInMins w token :
  js_or provided (refreshToken w) = Some token → token ≠ "" →
  requests (refreshSession server provided expiresInMins w).2 =
    requests w ++ [refresh_request token expiresInMins].
Proof.
  intros Htoken Hne.
  unfold refreshSession, mbind, cmd_bind, read. rewrite Htoken.
  rewrite truthy_Some by done. simpl.
  unfold cy_request, expect_eq, assign_accessToken, assign_refreshToken,
    mret, cmd_ret, throw.
  repeat (case_match; simplify_eq/=); done.
Qed.

Lemma refreshSession_throws_no_token server provided expiresInMins w :
  (refreshSession server provided expiresInMins w).1 = Throw no_refresh_token ↔
  truthy provided = false ∧ truthy (refreshToken w) = false.
Proof.
  unfold refreshSession, mbind, cmd_bind, read, js_or.
  destruct (truthy provided) eqn:Hp.
  - rewrite Hp. simpl. split; [|by intros [? _]].
    unfold cy_request, expect_eq, assign_accessToken, assign_refreshToken,
      mret, cmd_ret, throw.
    repeat (case_match; simplify_eq/=); done.
  - destruct (truthy (refreshToken w)) eqn:Hc; simpl; [|done].
    split; [|by intros [_ ?]].
    unfold cy_request, expect_eq, assign_accessToken, assign_refreshToken,
      mret, cmd_ret, throw.
    repeat (case_match; simplify_eq/=); done.
Qed.

(** C10.  A falsy refresh token passed to [refreshSession] (the empty
    string, or none) counts as absent: the command runs as if no token
    had been passed, and when a non-empty token is cached the request it
    sends carries the cached token.  The error of the missing token is
    thrown exactly when the passed token and the cached token are both
    falsy. *)
Theorem falsy_refresh_token_is_absent
    (server : request → response session_body)
    (expiresInMins : option Z) (w : world) :
  refreshSession server (Some "") expiresInMins w =
    refreshSession server None expiresInMins w ∧
  (∀ cached, refreshToken w = Some cached → cached ≠ "" →
     requests (refreshSession server (Some "") expiresInMins w).2 =
       requests w ++ [refresh_request cached expiresInMins]) ∧
  (∀ provided,
     (refreshSession server provided expiresInMins w).1 = Throw no_refresh_token ↔
     truthy provided = false ∧ truthy (refreshToken w) = false).
Proof.
  split; [|split].
  - by rewrite (refreshSession_falsy_provided server (Some "")).
  - intros cached Hc Hne. by apply refreshSession_sends.
  - intros provided. apply refreshSession_throws_no_token.
Qed.

Lemma falsy_refresh_token_is_absent_witness :
  requests
    (refreshSession (grants "a2" "r2") (Some "") None
       {| accessToken := Some "a1"; refreshToken := Some "r1"; requests := [] |}).2
  = [refresh_request "r1" None].
Proof.
  destruct (falsy_refresh_token_is_absent (grants "a2" "r2") None
              {| accessToken := Some "a1"; refreshToken := Some "r1";
                 requests := [] |}) as (_ & Hsent & _).
  apply (Hsent "r1"); [reflexivity | discriminate].
Defined.

(** C9.  Whatever category is passed, [getProductByCategory] issues the one
    request [GET /products/category/smartphones]: two categories give the
    same command. *)
Theorem getProductByCategory_ignores_category
    (server : request → response jsval) (category : string) (w : world) :
  requests (getProductByCategory server category w).2 =
    requests w ++ [ {| method := GET; url := "/products/category/smartphones";
                       headers := ∅; qs := None; body := None |} ] ∧
  (∀ category', getProductByCategory server category w =
                getProductByCategory server category' w).
Proof.
  split; [|done].
  unfold getProductByCategory, cy_request. by case_match.
Qed.

(** ** The life cycle of the token cache *)



(** A request followed by the check of its status: with a reply of
    status 200 the rest of the command runs on the reply, with any other
    status the command is over with an error. *)
Lemma request_accepted {B C} (server : request → response B) options
    (k : response B → cmd C) w :
  status (server options) = 200%Z →
  (resp ← cy_request server options; _ ← expect_eq (status resp) 200; k resp) w
  = k (server options) (sent options w).
Proof.
  intros Hs. unfold mbind, cmd_bind, cy_request, expect_eq.
  rewrite Hs. simpl. by rewrite Hs.
Qed.

Lemma request_refused {B C} (server : request → response B) options
    (k : response B → cmd C) w :
  status (server options) ≠ 200%Z →
  ∃ e,
    (resp ← cy_request server options; _ ← expect_eq (status resp) 200; k resp) w
    = (Throw e, sent options w).
Proof.
  intros Hs. unfold mbind, cmd_bind, cy_request, expect_eq.
  destruct (_ && _); [|by eauto].
  rewrite (bool_decide_eq_false_2 _ Hs). by eauto.
Qed.

(** [loginUser] either yields, with both variables set from the reply,
    or throws, with both variables as they were. *)
Lemma loginUser_outcome server username password expiresInMins w :
  let reply := server (login_request username password expiresInMins) in
  let run := loginUser server username password expiresInMins w in
  requests run.2 = requests w ++ [login_request username password expiresInMins] ∧
  ((status reply = 200%Z ∧
    accessToken run.2 = Some (body_accessToken (resp_body reply)) ∧
    refreshToken run.2 = Some (body_refreshToken (resp_body reply)) ∧
    run.1 = Yield {| session_accessToken := accessToken run.2;
                     session_refreshToken := refreshToken run.2 |}) ∨
   (status reply ≠ 200%Z ∧
    accessToken run.2 = accessToken w ∧
    refreshToken run.2 = refreshToken w ∧
    ∃ e, run.1 = Throw e)).
Proof.
  intros reply run. subst run.
  change (loginUser server username password expiresInMins w)
    with ((resp ← cy_request server (login_request username password expiresInMins);
           _ ← expect_eq (status resp) 200;
           keep_session resp) w).
  destruct (decide (status reply = 200%Z)) as [Hs|Hs].
  - rewrite request_accepted by done. simpl. split; [done|]. by left.
  - destruct (request_refused server
                (login_request username password expiresInMins)
                keep_session
                w Hs) as [e ->].
    simpl. split; [done|]. right. eauto.
Qed.

Lemma refreshSession_usable server provided expiresInMins w token :
  js_or provided (refreshToken w) = Some token → token ≠ "" →
  refreshSession server provided expiresInMins w =
  (resp ← cy_request server (refresh_request token expiresInMins);
   _ ← expect_eq (status resp) 200;
   keep_session resp) w.
Proof.
  intros Htoken Hne. unfold refreshSession.
  unfold mbind at 1, cmd_bind at 1, read at 1. rewrite Htoken.
  by rewrite truthy_Some.
Qed.

(** [refreshSession] with a usable token does the same. *)
Lemma refreshSession_outcome server provided expiresInMins w token :
  js_or provided (refreshToken w) = Some token → token ≠ "" →
  let reply := server (refresh_request token expiresInMins) in
  let run := refreshSession server provided expiresInMins w in
  requests run.2 = requests w ++ [refresh_request token expiresInMins] ∧
  ((status reply = 200%Z ∧
    accessToken run.2 = Some (body_accessToken (resp_body reply)) ∧
    refreshToken run.2 = Some (body_refreshToken (resp_body reply)) ∧
    run.1 = Yield {| session_accessToken := accessToken run.2;
                     session_refreshToken := refreshToken run.2 |}) ∨
   (status reply ≠ 200%Z ∧
    accessToken run.2 = accessToken w ∧
    refreshToken run.2 = refreshToken w ∧
    ∃ e, run.1 = Throw e)).
Proof.
  intros Htoken Hne reply run. subst run.
  rewrite (refreshSession_usable server provided expiresInMins w token) by done.
  destruct (decide (status reply = 200%Z)) as [Hs|Hs].
  - rewrite request_accepted by done. simpl. split; [done|]. by left.
  - destruct (request_refused server
                (refresh_request token expiresInMins)
                keep_session
                w Hs) as [e ->].
    simpl. split; [done|]. right. eauto.
Qed.

Section LifeCycle.
Context `{Host}.

Lemma refreshSession_unusable server provided expiresInMins w :
  truthy (js_or provided (refreshToken w)) = false →
  refreshSession server provided expiresInMins w = (Throw no_refresh_token, w).
Proof.
  intros Hfalsy. unfold refreshSession, mbind, cmd_bind, read.
  by rewrite Hfalsy.
Qed.

Lemma truthy_inv t : truthy t = true → ∃ s, t = Some s ∧ s ≠ "".
Proof.
  destruct t as [s|]; [|done]. simpl. intros Hs%bool_decide_eq_true_1. eauto.
Qed.





End LifeCycle.


(** * Further properties of the commands *)

(** ** Replies that are refused *)

(** X1.  A [loginUser] whose reply has another status than 200 throws
    once its one request has gone out, and leaves both cached tokens as
    they were; with status 200 it yields the tokens of the reply, which
    are then the cached ones.  Leaving [expiresInMins] out is passing
    30. *)
Theorem loginUser_by_status
    (server : request → response session_body)
    (username password : string) (expiresInMins : option Z) (w : world) :
  let options := login_request username password expiresInMins in
  let reply := server options in
  (status reply ≠ 200%Z →
     ∃ err, loginUser server username password expiresInMins w
            = (Throw err, sent options w)) ∧
  (status reply = 200%Z →
     loginUser server username password expiresInMins w
     = (Yield {| session_accessToken := Some (body_accessToken (resp_body reply));
                 session_refreshToken := Some (body_refreshToken (resp_body reply)) |},
        {| accessToken := Some (body_accessToken (resp_body reply));
           refreshToken := Some (body_refreshToken (resp_body reply));
           requests := requests w ++ [options] |})) ∧
  loginUser server username password None w
  = loginUser server username password (Some 30%Z) w.
Proof.
  intros options reply. split; [|split; [|done]].
  - intros Hs.
    destruct (request_refused server options keep_session w Hs) as [err Herr].
    exists err. exact Herr.
  - intros Hs.
    change (loginUser server username password expiresInMins w)
      with ((resp ← cy_request server options;
             _ ← expect_eq (status resp) 200;
             keep_session resp) w).
    by rewrite request_accepted.
Qed.

Lemma loginUser_by_status_witness :
  (∃ err,
     loginUser (λ _, {| status := 400;
                        resp_body := {| body_accessToken := "x";
                                        body_refreshToken := "y" |} |})
       "emilys" "wrong" None
       {| accessToken := Some "a1"; refreshToken := Some "r1"; requests := [] |}
     = (Throw err,
        {| accessToken := Some "a1"; refreshToken := Some "r1";
           requests := [login_request "emilys" "wrong" None] |})) ∧
  accessToken (loginUser (grants "a1" "r1") "emilys" "emilyspass" None initial).2
  = Some "a1".
Proof.
  split.
  - destruct (loginUser_by_status
                (λ _, {| status := 400;
                         resp_body := {| body_accessToken := "x";
                                         body_refreshToken := "y" |} |})
                "emilys" "wrong" None
                {| accessToken := Some "a1"; refreshToken := Some "r1";
                   requests := [] |}) as (Hrefused & _).
    apply Hrefused. simpl. lia.
  - destruct (loginUser_by_status (grants "a1" "r1") "emilys" "emilyspass" None
                initial) as (_ & Haccepted & _).
    rewrite Haccepted; reflexivity.
Defined.

(** X2.  A [refreshSession] that has a usable token (the one passed, or
    else the cached one) and gets a reply of another status than 200
    throws once its request has gone out and leaves both cached tokens as
    they were: a refused refresh does not lose the session.  With status
    200 the tokens of the reply replace the cached ones.  Leaving
    [expiresInMins] out is passing 30. *)
Theorem refreshSession_by_status
    (server : request → response session_body)
    (providedRefreshToken : option string) (expiresInMins : option Z)
    (w : world) (token : string) :
  js_or providedRefreshToken (refreshToken w) = Some token → token ≠ "" →
  let options := refresh_request token expiresInMins in
  let reply := server options in
  (status reply ≠ 200%Z →
     ∃ err, refreshSession server providedRefreshToken expiresInMins w
            = (Throw err, sent options w)) ∧
  (status reply = 200%Z →
     refreshSession server providedRefreshToken expiresInMins w
     = (Yield {| session_accessToken := Some (body_accessToken (resp_body reply));
                 session_refreshToken := Some (body_refreshToken (resp_body reply)) |},
        {| accessToken := Some (body_accessToken (resp_body reply));
           refreshToken := Some (body_refreshToken (resp_body reply));
           requests := requests w ++ [options] |})) ∧
  refreshSession server providedRefreshToken None w
  = refreshSession server providedRefreshToken (Some 30%Z) w.
Proof.
  intros Htoken Hne options reply. split; [|split; [|done]].
  - intros Hs.
    rewrite (refreshSession_usable server providedRefreshToken expiresInMins w token)
      by done.
    destruct (request_refused server options keep_session w Hs) as [err Herr].
    exists err. exact Herr.
  - intros Hs.
    rewrite (refreshSession_usable server providedRefreshToken expiresInMins w token)
      by done.
    by rewrite request_accepted.
Qed.

Lemma refreshSession_by_status_witness :
  ∃ err,
    refreshSession (λ _, {| status := 401;
                            resp_body := {| body_accessToken := "";
                                            body_refreshToken := "" |} |})
      None (Some 10%Z)
      {| accessToken := Some "a1"; refreshToken := Some "r1"; requests := [] |}
    = (Throw err,
       {| accessToken := Some "a1"; refreshToken := Some "r1";
          requests := [refresh_request "r1" (Some 10%Z)] |}).
Proof.
  destruct (refreshSession_by_status
              (λ _, {| status := 401;
                       resp_body := {| body_accessToken := "";
                                       body_refreshToken := "" |} |})
              None (Some 10%Z)
              {| accessToken := Some "a1"; refreshToken := Some "r1";
                 requests := [] |} "r1") as (Hrefused & _);
    [reflexivity | discriminate |].
  apply Hrefused. simpl. lia.
Defined.

(** ** The current user *)

Lemma getCurrentUser_usable (server : request → response jsval) w token :
  accessToken w = Some token → token ≠ "" →
  getCurrentUser server w =
  (resp ← cy_request server (me_request token);
   _ ← expect_eq (status resp) 200;
   mret (resp_body resp)) w.
Proof.
  intros Ha Hne. unfold getCurrentUser.
  unfold mbind at 1, cmd_bind at 1, read at 1. rewrite Ha.
  by rewrite truthy_Some.
Qed.

Lemma getCurrentUser_unusable (server : request → response jsval) w :
  truthy (accessToken w) = false →
  getCurrentUser server w = (Throw no_access_token, w).
Proof.
  intros Hfalsy. unfold getCurrentUser, mbind, cmd_bind, read.
  by rewrite Hfalsy.
Qed.

Lemma getCurrentUser_sends (server : request → response jsval) w token :
  accessToken w = Some token → token ≠ "" →
  (getCurrentUser server w).2 = sent (me_request token) w.
Proof.
  intros Ha Hne. rewrite (getCurrentUser_usable server w token) by done.
  destruct (decide (status (server (me_request token)) = 200%Z)) as [Hs|Hs].
  - by rewrite request_accepted.
  - by destruct (request_refused server (me_request token)
                   (λ resp, mret (resp_body resp)) w Hs) as [err ->].
Qed.

Lemma refreshSession_world server provided expiresInMins w token :
  js_or provided (refreshToken w) = Some token → token ≠ "" →
  requests (refreshSession server provided expiresInMins w).2
  = requests w ++ [refresh_request token expiresInMins].
Proof.
  intros Htoken Hne.
  by destruct (refreshSession_outcome server provided expiresInMins w token
                 Htoken Hne) as [-> _].
Qed.

(** X3.  [getCurrentUser] throws its error of the missing token, without
    a request, whenever the cached access token is falsy: [null], or the
    empty string.  With a non-empty token it sends one
    [GET /auth/me] with the header [Authorization: Bearer <token>], yields
    the body of a reply of status 200 and throws on any other status; the
    cached tokens are as before in every case. *)
Theorem getCurrentUser_by_token (server : request → response jsval) (w : world) :
  (truthy (accessToken w) = false →
     getCurrentUser server w = (Throw no_access_token, w)) ∧
  (accessToken w = Some "" →
     getCurrentUser server w = (Throw no_access_token, w)) ∧
  (∀ token, accessToken w = Some token → token ≠ "" →
     let reply := server (me_request token) in
     (status reply = 200%Z →
        getCurrentUser server w
        = (Yield (resp_body reply), sent (me_request token) w)) ∧
     (status reply ≠ 200%Z →
        ∃ err, getCurrentUser server w = (Throw err, sent (me_request token) w))).
Proof.
  split; [|split].
  - apply getCurrentUser_unusable.
  - intros Ha. apply getCurrentUser_unusable. by rewrite Ha.
  - intros token Ha Hne reply. split; intros Hs.
    + rewrite (getCurrentUser_usable server w token) by done.
      by rewrite request_accepted.
    + rewrite (getCurrentUser_usable server w token) by done.
      destruct (request_refused server (me_request token)
                  (λ resp, mret (resp_body resp)) w Hs) as [err Herr].
      exists err. exact Herr.
Qed.

Lemma getCurrentUser_by_token_witness :
  getCurrentUser (λ _, {| status := 200; resp_body := JStr "emily" |})
    {| accessToken := Some "a1"; refreshToken := Some "r1"; requests := [] |}
  = (Yield (JStr "emily"),
     {| accessToken := Some "a1"; refreshToken := Some "r1";
        requests := [me_request "a1"] |}) ∧
  getCurrentUser (λ _, {| status := 200; resp_body := JStr "emily" |})
    {| accessToken := Some ""; refreshToken := Some "r1"; requests := [] |}
  = (Throw no_access_token,
     {| accessToken := Some ""; refreshToken := Some "r1"; requests := [] |}).
Proof.
  split.
  - destruct (getCurrentUser_by_token
                (λ _, {| status := 200; resp_body := JStr "emily" |})
                {| accessToken := Some "a1"; refreshToken := Some "r1";
                   requests := [] |}) as (_ & _ & Hsome).
    destruct (Hsome "a1") as [Hok _]; [reflexivity | discriminate |].
    apply Hok. reflexivity.
  - destruct (getCurrentUser_by_token
                (λ _, {| status := 200; resp_body := JStr "emily" |})
                {| accessToken := Some ""; refreshToken := Some "r1";
                   requests := [] |}) as (_ & Hempty & _).
    apply Hempty. reflexivity.
Defined.

(** ** What is cached is what is sent *)

(** X4.  After a [loginUser] that got a reply of status 200, the next
    [getCurrentUser] sends the access token of that reply and the next
    [refreshSession] without a token sends its refresh token; if the
    access token of the reply is the empty string, [getCurrentUser] throws
    its error of the missing token although the login went through. *)
Theorem login_tokens_are_sent
    (server : request → response session_body)
    (username password : string) (expiresInMins : option Z) (w : world)
    (server_me : request → response jsval)
    (server_refresh : request → response session_body)
    (expiresInMins' : option Z) :
  let reply := server (login_request username password expiresInMins) in
  let w1 := (loginUser server username password expiresInMins w).2 in
  status reply = 200%Z →
  (body_accessToken (resp_body reply) ≠ "" →
     requests (getCurrentUser server_me w1).2
     = requests w ++ [login_request username password expiresInMins;
                      me_request (body_accessToken (resp_body reply))]) ∧
  (body_accessToken (resp_body reply) = "" →
     getCurrentUser server_me w1 = (Throw no_access_token, w1)) ∧
  (body_refreshToken (resp_body reply) ≠ "" →
     requests (refreshSession server_refresh None expiresInMins' w1).2
     = requests w ++ [login_request username password expiresInMins;
                      refresh_request (body_refreshToken (resp_body reply))
                        expiresInMins']).
Proof.
  intros reply w1 Hs.
  destruct (loginUser_outcome server username password expiresInMins w)
    as [Hreq [(_ & Ha & Hr & _)|(Hne & _)]]; [|done].
  fold w1 in Hreq, Ha, Hr. fold reply in Ha, Hr.
  split; [|split].
  - intros Hne. rewrite (getCurrentUser_sends server_me w1 _ Ha Hne).
    simpl. rewrite Hreq. by rewrite <- app_assoc.
  - intros Hempty. apply getCurrentUser_unusable. by rewrite Ha, Hempty.
  - intros Hne.
    rewrite (refreshSession_world server_refresh None expiresInMins' w1
               (body_refreshToken (resp_body reply))); [|done|done].
    rewrite Hreq. by rewrite <- app_assoc.
Qed.

Lemma login_tokens_are_sent_witness :
  requests
    (getCurrentUser (λ _, {| status := 200; resp_body := JNull |})
       (loginUser (grants "a1" "r1") "emilys" "emilyspass" None initial).2).2
  = [login_request "emilys" "emilyspass" None; me_request "a1"].
Proof.
  destruct (login_tokens_are_sent (grants "a1" "r1") "emilys" "emilyspass" None
              initial (λ _, {| status := 200; resp_body := JNull |})
              (grants "a2" "r2") None) as (Hme & _); [reflexivity|].
  apply Hme. discriminate.
Defined.

(** X5.  After a [refreshSession] that got a reply of status 200 the
    tokens of that reply are the ones in use: the next [getCurrentUser]
    sends the new access token and the next [refreshSession] without a
    token sends the new refresh token, whatever was cached or passed
    before. *)
Theorem refresh_rotates_tokens
    (server : request → response session_body)
    (providedRefreshToken : option string) (expiresInMins : option Z)
    (w : world) (token : string)
    (server_me : request → response jsval)
    (server_refresh : request → response session_body)
    (expiresInMins' : option Z) :
  js_or providedRefreshToken (refreshToken w) = Some token → token ≠ "" →
  let reply := server (refresh_request token expiresInMins) in
  let w1 := (refreshSession server providedRefreshToken expiresInMins w).2 in
  status reply = 200%Z →
  (body_accessToken (resp_body reply) ≠ "" →
     (getCurrentUser server_me w1).2
     = sent (me_request (body_accessToken (resp_body reply))) w1) ∧
  (body_refreshToken (resp_body reply) ≠ "" →
     requests (refreshSession server_refresh None expiresInMins' w1).2
     = requests w ++ [refresh_request token expiresInMins;
                      refresh_request (body_refreshToken (resp_body reply))
                        expiresInMins']).
Proof.
  intros Htoken Hne reply w1 Hs.
  destruct (refreshSession_outcome server providedRefreshToken expiresInMins w
              token Htoken Hne)
    as [Hreq [(_ & Ha & Hr & _)|(Hne' & _)]]; [|done].
  fold w1 in Hreq, Ha, Hr. fold reply in Ha, Hr.
  split.
  - intros Hne'. by apply getCurrentUser_sends.
  - intros Hne'.
    rewrite (refreshSession_world server_refresh None expiresInMins' w1
               (body_refreshToken (resp_body reply))); [|done|done].
    rewrite Hreq. by rewrite <- app_assoc.
Qed.

Lemma refresh_rotates_tokens_witness :
  requests
    (refreshSession (grants "a3" "r3") None None
       (refreshSession (grants "a2" "r2") None None
          {| accessToken := Some "a1"; refreshToken := Some "r1";
             requests := [] |}).2).2
  = [refresh_request "r1" None; refresh_request "r2" None].
Proof.
  destruct (refresh_rotates_tokens (grants "a2" "r2") None None
              {| accessToken := Some "a1"; refreshToken := Some "r1";
                 requests := [] |} "r1"
              (λ _, {| status := 200; resp_body := JNull |})
              (grants "a3" "r3") None) as (_ & Hnext);
    [reflexivity | discriminate | reflexivity |].
  apply Hnext. discriminate.
Defined.

(** X6.  A non-empty refresh token passed to [refreshSession] is the one
    sent, whatever is cached: the cached token is not looked at, and no
    login is needed, the error of the missing token is not thrown even
    with an empty cache. *)
Theorem provided_refresh_token_wins
    (server : request → response session_body)
    (provided : string) (expiresInMins : option Z) (w : world) :
  provided ≠ "" →
  requests (refreshSession server (Some provided) expiresInMins w).2
  = requests w ++ [refresh_request provided expiresInMins] ∧
  (refreshSession server (Some provided) expiresInMins w).1 ≠ Throw no_refresh_token ∧
  requests (refreshSession server (Some provided) expiresInMins initial).2
  = [refresh_request provided expiresInMins].
Proof.
  intros Hne.
  assert (Hor : ∀ w', js_or (Some provided) (refreshToken w') = Some provided).
  { intros w'. unfold js_or. by rewrite truthy_Some. }
  split; [|split].
  - by apply refreshSession_world.
  - intros Hthrow. apply refreshSession_throws_no_token in Hthrow as [Hfalsy _].
    by rewrite truthy_Some in Hfalsy.
  - by rewrite (refreshSession_world server (Some provided) expiresInMins initial
                  provided).
Qed.

Lemma provided_refresh_token_wins_witness :
  requests (refreshSession (grants "a2" "r2") (Some "mine") None
              {| accessToken := Some "a1"; refreshToken := Some "r1";
                 requests := [] |}).2
  = [refresh_request "mine" None].
Proof.
  destruct (provided_refresh_token_wins (grants "a2" "r2") "mine" None
              {| accessToken := Some "a1"; refreshToken := Some "r1";
                 requests := [] |}) as [Hsent _]; [discriminate|].
  exact Hsent.
Defined.

(** ** The requests of the product helpers *)

Lemma cy_request_world {B} (server : request → response B) options w :
  (cy_request server options w).2 = sent options w.
Proof. unfold cy_request. by case_match. Qed.

Lemma spread_if_lookup name v (o : record) field :
  spread_if name v o !! field =
    if decide (name = field)
    then match v with Some n => Some (JNum n) | None => o !! field end
    else o !! field.
Proof.
  unfold spread_if. destruct v as [n|]; [|by case_decide].
  by rewrite lookup_insert.
Qed.

(** X7.  [searchProduct] sends one [GET /products/search] whose query has
    [q], and has [limit] and [skip] exactly when they are given (a given 0
    is sent too, each of the two independently of the other) and nothing
    else; it has no header and no body. *)
Theorem searchProduct_query (server : request → response jsval) (q : string)
    (limit skip : option Z) (w : world) :
  ∃ query : record,
    requests (searchProduct server q limit skip w).2
    = requests w ++ [ {| method := GET; url := "/products/search"; headers := ∅;
                         qs := Some query; body := None |} ] ∧
    query !! "q" = Some (JStr q) ∧
    query !! "limit" = JNum <$> limit ∧
    query !! "skip" = JNum <$> skip ∧
    (∀ field, is_Some (query !! field) →
              field = "q" ∨ field = "limit" ∨ field = "skip").
Proof.
  eexists. split; [|split; [|split; [|split]]].
  - unfold searchProduct. rewrite cy_request_world. reflexivity.
  - rewrite !spread_if_lookup. by simplify_map_eq.
  - rewrite !spread_if_lookup. destruct limit; by simplify_map_eq.
  - rewrite !spread_if_lookup. destruct skip; by simplify_map_eq.
  - intros field. rewrite !spread_if_lookup.
    destruct (decide ("skip" = field)) as [<-|?]; [by auto|].
    destruct (decide ("limit" = field)) as [<-|?]; [by auto|].
    destruct (decide ("q" = field)) as [<-|?]; [by auto|].
    rewrite lookup_singleton_ne by done. by intros [? ?].
Qed.

(** X8.  [filterByMultipleKeys] sends one [GET /products] (not
    [/products/search]) whose query has [select], the given field names in
    the given order, and has [limit] and [skip] exactly when they are
    given, and nothing else. *)
Theorem filterByMultipleKeys_query (server : request → response jsval)
    (select : list string) (limit skip : option Z) (w : world) :
  ∃ query : record,
    requests (filterByMultipleKeys server select limit skip w).2
    = requests w ++ [ {| method := GET; url := "/products"; headers := ∅;
                         qs := Some query; body := None |} ] ∧
    query !! "select" = Some (JArr (JStr <$> select)) ∧
    query !! "limit" = JNum <$> limit ∧
    query !! "skip" = JNum <$> skip ∧
    (∀ field, is_Some (query !! field) →
              field = "select" ∨ field = "limit" ∨ field = "skip").
Proof.
  eexists. split; [|split; [|split; [|split]]].
  - unfold filterByMultipleKeys. rewrite cy_request_world. reflexivity.
  - rewrite !spread_if_lookup. by simplify_map_eq.
  - rewrite !spread_if_lookup. destruct limit; by simplify_map_eq.
  - rewrite !spread_if_lookup. destruct skip; by simplify_map_eq.
  - intros field. rewrite !spread_if_lookup.
    destruct (decide ("skip" = field)) as [<-|?]; [by auto|].
    destruct (decide ("limit" = field)) as [<-|?]; [by auto|].
    destruct (decide ("select" = field)) as [<-|?]; [by auto|].
    rewrite lookup_singleton_ne by done. by intros [? ?].
Qed.

Lemma string_app_inj (s a b : string) : s +:+ a = s +:+ b → a = b.
Proof. induction s as [|c s IH]; simpl; [done|]. intros [= Heq]. by apply IH. Qed.

Section ProductPath.
Context `{Host}.

Lemma NumberToString_safe n :
  (Z.abs n ≤ 2 ^ 53)%Z → NumberToString n = pretty n.
Proof.
  intros Hn. unfold NumberToString.
  by rewrite (proj2 (Z.leb_le (Z.abs n) (2 ^ 53))).
Qed.

(** X9.  [getProducts] puts the product id into the path, printed as
    the template literal prints a number.  A safe integer (one of
    absolute value up to 2^53) prints as its decimal digits, so the
    request tells the id: two different safe ids give two different
    requests (where [getProductByCategory] sends the same request for
    every category). *)
Theorem getProducts_request_tells_id (server : request → response jsval)
    (productId productId' : Z) (w : world) :
  requests (getProducts server productId w).2
  = requests w ++ [ {| method := GET;
                       url := "/products/" +:+ NumberToString productId;
                       headers := ∅; qs := None; body := None |} ] ∧
  ((Z.abs productId ≤ 2 ^ 53)%Z →
     requests (getProducts server productId w).2
     = requests w ++ [ {| method := GET;
                          url := "/products/" +:+ pretty productId;
                          headers := ∅; qs := None; body := None |} ]) ∧
  ((Z.abs productId ≤ 2 ^ 53)%Z → (Z.abs productId' ≤ 2 ^ 53)%Z →
     requests (getProducts server productId w).2
     = requests (getProducts server productId' w).2 → productId = productId').
Proof.
  unfold getProducts. rewrite !cy_request_world. simpl.
  split; [done|]. split.
  - intros Hsafe. by rewrite NumberToString_safe.
  - intros Hsafe Hsafe' Heq. rewrite !NumberToString_safe in Heq by done.
    apply app_inv_head in Heq. injection Heq as Heq.
    apply string_app_inj in Heq. by apply (inj pretty) in Heq.
Qed.
End ProductPath.

Lemma getProducts_request_tells_id_witness :
  requests (getProducts (H := integer_host)
              (λ _, {| status := 200; resp_body := JNull |}) 1 initial).2
  ≠ requests (getProducts (H := integer_host)
                (λ _, {| status := 200; resp_body := JNull |}) 2 initial).2.
Proof.
  intros Heq.
  destruct (getProducts_request_tells_id (H := integer_host)
              (λ _, {| status := 200; resp_body := JNull |}) 1 2 initial)
    as (_ & _ & Hinj).
  assert (1 = 2)%Z as Habs; [|discriminate Habs].
  apply Hinj; [vm_compute; discriminate | vm_compute; discriminate | exact Heq].
Defined.

Lemma searchProduct_query_witness :
  ∃ query : record,
    requests (searchProduct (λ _, {| status := 200; resp_body := JNull |})
                "phone" None (Some 5%Z) initial).2
    = [ {| method := GET; url := "/products/search"; headers := ∅;
           qs := Some query; body := None |} ] ∧
    query !! "limit" = None ∧
    query !! "skip" = Some (JNum 5) ∧
    query !! "page" = None.
Proof.
  destruct (searchProduct_query (λ _, {| status := 200; resp_body := JNull |})
              "phone" None (Some 5%Z) initial)
    as (query & Hreq & _ & Hlimit & Hskip & Honly).
  exists query. split; [exact Hreq|]. split; [exact Hlimit|].
  split; [exact Hskip|].
  destruct (query !! "page") as [v|] eqn:Hpage; [|reflexivity].
  destruct (Honly "page") as [Hq|[Hl|Hs]];
    [rewrite Hpage; eexists; reflexivity | discriminate Hq | discriminate Hl
    | discriminate Hs].
Defined.

Lemma filterByMultipleKeys_query_witness :
  ∃ query : record,
    requests (filterByMultipleKeys (λ _, {| status := 200; resp_body := JNull |})
                ["id"; "title"] (Some 10%Z) None initial).2
    = [ {| method := GET; url := "/products"; headers := ∅;
           qs := Some query; body := None |} ] ∧
    query !! "select" = Some (JArr [JStr "id"; JStr "title"]) ∧
    query !! "skip" = None ∧
    query !! "q" = None.
Proof.
  destruct (filterByMultipleKeys_query
              (λ _, {| status := 200; resp_body := JNull |})
              ["id"; "title"] (Some 10%Z) None initial)
    as (query & Hreq & Hselect & _ & Hskip & Honly).
  exists query. split; [exact Hreq|]. split; [exact Hselect|].
  split; [exact Hskip|].
  destruct (query !! "q") as [v|] eqn:Hq; [|reflexivity].
  destruct (Honly "q") as [Hs|[Hl|Hk]];
    [rewrite Hq; eexists; reflexivity | discriminate Hs | discriminate Hl
    | discriminate Hk].
Defined.

(** ** Where credentials go *)

Lemma confined_plain options :
  headers options = ∅ → body options = None → confined options.
Proof.
  intros Hh Hb. unfold confined, carries. rewrite Hh, Hb.
  split; [|done]. rewrite lookup_empty. by intros [? ?].
Qed.

Lemma confined_login username password expiresInMins :
  confined (login_request username password expiresInMins).
Proof.
  unfold confined, carries, login_request, json_headers. simpl.
  split; [|split]; try done.
  rewrite lookup_singleton_ne by done. by intros [? ?].
Qed.

Lemma confined_refresh token expiresInMins :
  confined (refresh_request token expiresInMins).
Proof.
  unfold confined, carries, refresh_request, json_headers. simpl.
  split; [|split]; try done.
  rewrite lookup_singleton_ne by done. by intros [? ?].
Qed.

Lemma confined_me token : confined (me_request token).
Proof. unfold confined, carries, me_request. simpl. by split. Qed.

Section Confinement.
Context `{Host}.

(** What a call adds to the list of requests: at most one request, and a
    confined one. *)
Lemma after_requests (c : call) (w : world) :
  ∃ added, requests (after c w) = requests w ++ added ∧
           length added ≤ 1 ∧ Forall confined added.
Proof.
  assert (Hplain : ∀ options, headers options = ∅ → body options = None →
            ∃ added, requests (sent options w) = requests w ++ added ∧
                     length added ≤ 1 ∧ Forall confined added).
  { intros options Hh Hb. exists [options]. split; [done|]. split; [done|].
    constructor; [by apply confined_plain|constructor]. }
  assert (Hnone : ∃ added, requests w = requests w ++ added ∧
                           length added ≤ 1 ∧ Forall confined added).
  { exists []. rewrite app_nil_r. split; [done|]. split; [simpl; lia|constructor]. }
  destruct c; simpl;
    unfold getProducts, getAllProducts, searchProduct, filterByMultipleKeys,
      sortByNOrder, getProductsCategories, getAllProductsCategoryList,
      getProductByCategory;
    rewrite ?cy_request_world; try (by apply Hplain).
  - exists [login_request username password expiresInMins].
    destruct (loginUser_outcome server username password expiresInMins w)
      as [-> _].
    split; [done|]. split; [done|].
    constructor; [apply confined_login|constructor].
  - destruct (truthy (accessToken w)) eqn:Htruthy.
    + apply truthy_inv in Htruthy as (token & Ha & Hne).
      rewrite (getCurrentUser_sends server w token Ha Hne).
      exists [me_request token]. split; [done|]. split; [done|].
      constructor; [apply confined_me|constructor].
    + by rewrite getCurrentUser_unusable.
  - destruct (truthy (js_or providedRefreshToken (refreshToken w))) eqn:Htruthy.
    + apply truthy_inv in Htruthy as (token & Htoken & Hne).
      rewrite (refreshSession_world server providedRefreshToken expiresInMins w
                 token Htoken Hne).
      exists [refresh_request token expiresInMins]. split; [done|]. split; [done|].
      constructor; [apply confined_refresh|constructor].
    + by rewrite refreshSession_unusable.
  - unfold run_sync. by destruct (thrown _).
Qed.

(** X10.  Over any sequence of calls of the commands, whatever the
    service answers: the list of requests only grows, by at most one
    request per call, and credentials stay where they belong, that is,
    if every request so far with an [Authorization] header went to
    [/auth/me], every one with a password to [/auth/login] and every one
    with a refresh token to [/auth/refresh], then so does every request
    after the calls.  No product helper sends a token. *)
Theorem credentials_stay_confined (cs : list call) (w : world) :
  requests w `prefix_of` requests (after_all cs w) ∧
  length (requests (after_all cs w)) ≤ length (requests w) + length cs ∧
  (Forall confined (requests w) → Forall confined (requests (after_all cs w))) ∧
  Forall confined (requests (after_all cs initial)).
Proof.
  assert (Hall : ∀ cs w,
            requests w `prefix_of` requests (after_all cs w) ∧
            length (requests (after_all cs w)) ≤ length (requests w) + length cs ∧
            (Forall confined (requests w) →
             Forall confined (requests (after_all cs w)))).
  { clear cs w. intros cs. induction cs as [|c cs IH]; intros w.
    - simpl. split; [done|]. split; [lia|done].
    - simpl. destruct (after_requests c w) as (added & Hreq & Hlen & Hconf).
      destruct (IH (after c w)) as (Hpre & Hlen' & Hconf').
      rewrite Hreq in Hpre, Hlen', Hconf'. split; [|split].
      + etrans; [|exact Hpre]. by apply prefix_app_r.
      + rewrite length_app in Hlen'. lia.
      + intros Hw. apply Hconf'. by apply Forall_app. }
  destruct (Hall cs w) as (Hpre & Hlen & Hconf).
  split; [done|]. split; [done|]. split; [done|].
  destruct (Hall cs initial) as (_ & _ & Hinit). apply Hinit. constructor.
Qed.
End Confinement.

Lemma credentials_stay_confined_witness :
  Forall confined
    (requests
       (after_all (H := integer_host)
          [ CallLoginUser (grants "a1" "r1") "emilys" "emilyspass" None;
            CallSearchProduct (λ _, {| status := 200; resp_body := JNull |})
              "phone" (Some 5%Z) None;
            CallGetCurrentUser (λ _, {| status := 200; resp_body := JNull |}) ]
          {| accessToken := None; refreshToken := None;
             requests := [me_request "old"] |})).
Proof.
  destruct (credentials_stay_confined (H := integer_host)
              [ CallLoginUser (grants "a1" "r1") "emilys" "emilyspass" None;
                CallSearchProduct (λ _, {| status := 200; resp_body := JNull |})
                  "phone" (Some 5%Z) None;
                CallGetCurrentUser (λ _, {| status := 200; resp_body := JNull |}) ]
              {| accessToken := None; refreshToken := None;
                 requests := [me_request "old"] |}) as (_ & _ & Hconf & _).
  apply Hconf. simpl. constructor; [|constructor].
  unfold confined, carries. simpl. split; [reflexivity|]. split; intros [].
Defined.

(** ** The helper on keyed records *)

Lemma StronglySorted_Forall2 {A B} (R : A → A → Prop) (R' : B → B → Prop)
    (E : A → B → Prop) l l' :
  (∀ x y x' y', E x x' → E y y' → R x y → R' x' y') →
  Forall2 E l l' → StronglySorted R l → StronglySorted R' l'.
Proof.
  intros HR HE. induction HE as [|x x' l l' Hx HE IH]; intros Hs.
  - constructor.
  - apply StronglySorted_inv in Hs as [Hs Hall]. constructor; [by apply IH|].
    clear IH Hs. induction HE as [|y y' l l' Hy HE IH]; [constructor|].
    inversion_clear Hall as [|?? Hxy Hall']. constructor; [|by apply IH].
    by apply (HR x y).
Qed.

Lemma StronglySorted_pairs {A} (R : A → A → Prop) l :
  StronglySorted R l ↔
  ∀ i j x y, l !! i = Some x → l !! j = Some y → i < j → R x y.
Proof.
  split.
  - intros Hs. induction Hs as [|z l Hs IH Hall]; intros i j x y Hi Hj Hlt.
    + done.
    + destruct i as [|i], j as [|j]; try lia; simpl in *.
      * simplify_eq. rewrite Forall_forall in Hall. apply Hall.
        by eapply list_elem_of_lookup_2.
      * apply (IH i j); [done|done|lia].
  - induction l as [|z l IH]; intros Hpairs; [constructor|].
    constructor.
    + apply IH. intros i j x y Hi Hj Hlt.
      apply (Hpairs (S i) (S j)); [done|done|lia].
    + apply Forall_forall. intros y Hy.
      apply list_elem_of_lookup in Hy as [j Hj].
      apply (Hpairs 0 (S j)); [done|done|lia].
Qed.

Section Keyed.
Context `{Host}.

(** The helper passes exactly the arrays that are in order, for every
    class of records on which the comparison is total and transitive. *)
Lemma assertSortedByKey_ordered key order (P : record → Prop) array :
  (∀ a b, P a → P b → (0 < compare_by_key key order a b)%Z →
          le_by (compare_by_key key order) b a) →
  (∀ a b c, P a → P b → P c →
            le_by (compare_by_key key order) a b →
            le_by (compare_by_key key order) b c →
            le_by (compare_by_key key order) a c) →
  Forall P array →
  StronglySorted (le_by (compare_by_key key order))
    (orderBy array (iteratees key) (orders order)) ∧
  (thrown (assertSortedByKey array key order) = None ↔
   StronglySorted (le_by (compare_by_key key order)) array).
Proof.
  intros Htot Htrans HP.
  assert (Hins : orderBy array (iteratees key) (orders order) =
                 insertion_sort (compare_by_key key order) array).
  { apply orderBy_insertion. rewrite Forall_forall in HP.
    intros a b c Ha Hb Hc. apply Htrans; by apply HP. }
  assert (Hs : StronglySorted (le_by (compare_by_key key order))
                 (orderBy array (iteratees key) (orders order))).
  { rewrite Hins. by apply (insertion_sort_sorted _ P). }
  split; [done|].
  rewrite assertSortedByKey_thrown. split.
  - by intros ->.
  - intros Hsorted. rewrite Hins. symmetry.
    by apply insertion_sort_fixpoint.
Qed.

Lemma compare_by_key_text key order a b k k' :
  has_text_key key a k → has_text_key key b k' →
  le_by (compare_by_key key order) a b ↔ key_le String.compare order k k'.
Proof.
  intros [Ha Hia] [Hb Hib]. unfold le_by, key_le.
  rewrite (compare_by_key_plain key order a b k.1 k.2 k'.1 k'.2) by done.
  destruct (String.compare k.1 k'.1), order; simpl;
    try (split; [done|lia]); try (split; [lia|done]).
  - destruct (Z.compare_spec k.2 k'.2); simpl; lia.
  - destruct (Z.compare_spec k.2 k'.2); simpl; lia.
Qed.

Lemma compare_by_key_numeric key order a b na ia nb ib :
  primary key a = JNum na → id_of a = JNum ia →
  primary key b = JNum nb → id_of b = JNum ib →
  compare_by_key key order a b =
    match (na ?= nb)%Z with
    | Eq => sign (ia ?= ib)%Z
    | c => match order with asc => sign c | desc => (- sign c)%Z end
    end.
Proof.
  intros Ha Hia Hb Hib. unfold compare_by_key.
  rewrite Ha, Hia, Hb, Hib, !compareAscending_numbers.
  by destruct (na ?= nb)%Z, order.
Qed.

Lemma compare_by_key_number key order a b k k' :
  has_number_key key a k → has_number_key key b k' →
  le_by (compare_by_key key order) a b ↔ key_le Z.compare order k k'.
Proof.
  intros [Ha Hia] [Hb Hib]. unfold le_by, key_le.
  rewrite (compare_by_key_numeric key order a b k.1 k.2 k'.1 k'.2) by done.
  destruct (k.1 ?= k'.1)%Z, order; simpl;
    try (split; [done|lia]); try (split; [lia|done]).
  - destruct (Z.compare_spec k.2 k'.2); simpl; lia.
  - destruct (Z.compare_spec k.2 k'.2); simpl; lia.
Qed.

Lemma numeric_inv key o :
  numeric key o → ∃ k, has_number_key key o k.
Proof.
  unfold numeric, has_number_key.
  destruct (primary key o) as [| | | n | | | |], (id_of o) as [| | | m | | | |];
    try done.
  intros _. by exists (n, m).
Qed.

Lemma numeric_total key order a b :
  numeric key a → numeric key b →
  (0 < compare_by_key key order a b)%Z →
  le_by (compare_by_key key order) b a.
Proof.
  intros [[na ia] [Ha Hia]]%numeric_inv [[nb ib] [Hb Hib]]%numeric_inv.
  simpl in *. unfold le_by.
  rewrite (compare_by_key_numeric key order a b na ia nb ib) by done.
  rewrite (compare_by_key_numeric key order b a nb ib na ia) by done.
  rewrite (Z.compare_antisym na nb), (Z.compare_antisym ia ib).
  destruct (na ?= nb)%Z, (ia ?= ib)%Z, order; simpl; lia.
Qed.

Lemma numeric_trans key order a b c :
  numeric key a → numeric key b → numeric key c →
  le_by (compare_by_key key order) a b →
  le_by (compare_by_key key order) b c →
  le_by (compare_by_key key order) a c.
Proof.
  intros [ka Ha]%numeric_inv [kb Hb]%numeric_inv [kc Hc]%numeric_inv.
  rewrite (compare_by_key_number key order a b ka kb) by done.
  rewrite (compare_by_key_number key order b c kb kc) by done.
  rewrite (compare_by_key_number key order a c ka kc) by done.
  unfold key_le.
  destruct (Z.compare_spec ka.1 kb.1), (Z.compare_spec kb.1 kc.1),
    (Z.compare_spec ka.1 kc.1); try lia; try done; congruence.
Qed.

Lemma has_text_key_plain key array keys :
  Forall2 (has_text_key key) array keys → Forall (plain key) array.
Proof.
  induction 1 as [|o k array keys [Hp Hi] _ IH]; constructor; [|done].
  unfold plain. by rewrite Hp, Hi.
Qed.

Lemma has_number_key_numeric key array keys :
  Forall2 (has_number_key key) array keys → Forall (numeric key) array.
Proof.
  induction 1 as [|o k array keys [Hp Hi] _ IH]; constructor; [|done].
  unfold numeric. by rewrite Hp, Hi.
Qed.

Lemma passes_text key order array keys :
  Forall2 (has_text_key key) array keys →
  thrown (assertSortedByKey array key order) = None ↔
  StronglySorted (key_le String.compare order) keys.
Proof.
  intros Hkeys.
  rewrite (assertSortedByKey_plain key order array)
    by by eapply has_text_key_plain.
  split.
  - apply (StronglySorted_Forall2 _ _ (has_text_key key)); [|done].
    intros x y x' y' Hx Hy. by apply compare_by_key_text.
  - apply (StronglySorted_Forall2 _ _ (flip (has_text_key key)));
      [|by apply Forall2_flip].
    intros x y x' y' Hx Hy. by apply compare_by_key_text.
Qed.

Lemma passes_number key order array keys :
  Forall2 (has_number_key key) array keys →
  thrown (assertSortedByKey array key order) = None ↔
  StronglySorted (key_le Z.compare order) keys.
Proof.
  intros Hkeys.
  destruct (assertSortedByKey_ordered key order (numeric key) array) as [_ ->];
    [apply numeric_total | apply numeric_trans
    | by eapply has_number_key_numeric |].
  split.
  - apply (StronglySorted_Forall2 _ _ (has_number_key key)); [|done].
    intros x y x' y' Hx Hy. by apply compare_by_key_number.
  - apply (StronglySorted_Forall2 _ _ (flip (has_number_key key)));
      [|by apply Forall2_flip].
    intros x y x' y' Hx Hy. by apply compare_by_key_number.
Qed.
End Keyed.

Lemma key_le_reverse {K} (compare : K → K → comparison) (keys : list (K * Z)) :
  (∀ x y, compare y x = CompOpp (compare x y)) →
  (∀ x y, compare x y = Eq ↔ x = y) →
  StronglySorted (key_le compare asc) keys →
  StronglySorted (key_le compare desc) (reverse keys) ↔
  (∀ k k', k ∈ keys → k' ∈ keys → k.1 = k'.1 → k.2 = k'.2).
Proof.
  intros Hanti Heq Hasc. rewrite StronglySorted_pairs in Hasc.
  rewrite StronglySorted_pairs. split.
  - intros Hdesc.
    assert (Hlt : ∀ i j k k', keys !! i = Some k → keys !! j = Some k' →
              i < j → k.1 = k'.1 → k.2 = k'.2).
    { intros i j k k' Hi Hj Hij Hsame.
      pose proof (Hasc i j k k' Hi Hj Hij) as Hup.
      pose proof (lookup_lt_Some _ _ _ Hj) as Hlen.
      assert (Hdown : key_le compare desc k' k).
      { apply (Hdesc (length keys - S j) (length keys - S i)); [| |lia].
        - apply reverse_lookup_Some. split; [|lia].
          by replace (length keys - S (length keys - S j)) with j by lia.
        - apply reverse_lookup_Some. split; [|lia].
          by replace (length keys - S (length keys - S i)) with i by lia. }
      unfold key_le in Hup, Hdown. rewrite Hanti in Hdown.
      rewrite (proj2 (Heq k.1 k'.1) Hsame) in Hup, Hdown. simpl in Hdown. lia. }
    intros k k' [i Hi]%list_elem_of_lookup [j Hj]%list_elem_of_lookup Hsame.
    destruct (Nat.lt_trichotomy i j) as [Hij|[->|Hji]].
    + by apply (Hlt i j).
    + congruence.
    + symmetry. by apply (Hlt j i).
  - intros Hties i j x y Hi Hj Hij.
    apply reverse_lookup_Some in Hi as [Hi Hilen].
    apply reverse_lookup_Some in Hj as [Hj Hjlen].
    pose proof (Hasc _ _ y x Hj Hi ltac:(lia)) as Hup.
    unfold key_le in *. rewrite Hanti.
    destruct (compare y.1 x.1) eqn:Hc; simpl; [|done|done].
    apply Heq in Hc.
    rewrite (Hties y x); [lia| | |done]; by eapply list_elem_of_lookup_2.
Qed.

Lemma toLocaleLowerCase_idemp s :
  toLocaleLowerCase (toLocaleLowerCase s) = toLocaleLowerCase s.
Proof.
  induction s as [|c s IH]; simpl; [done|]. f_equal; [|done].
  by destruct c as [[] [] [] [] [] [] [] []].
Qed.

Section KeyedVerdicts.
Context `{Host}.

(** The helper throws nothing or the error of the assertion, so two runs
    for the same key and direction that pass together throw alike. *)
Lemma same_verdict key order array array' :
  (thrown (assertSortedByKey array' key order) = None ↔
   thrown (assertSortedByKey array key order) = None) →
  thrown (assertSortedByKey array' key order)
  = thrown (assertSortedByKey array key order).
Proof.
  unfold assertSortedByKey, expect_deep_equal.
  do 2 case_bool_decide; simpl; intros [Hto Hfrom]; try done.
  - by specialize (Hto eq_refl).
  - by specialize (Hfrom eq_refl).
Qed.

(** A field the record does not have reads as [undefined], except
    under the names of the properties of [Object.prototype]. *)
Lemma get_absent_nullish (o : record) key :
  o !! key = None → is_nullish (get o key) = true ↔ key ∉ Object_prototype.
Proof.
  intros Ho. unfold get, inherited. rewrite Ho.
  case_bool_decide; simpl; split; done.
Qed.

(** X11.  On records whose value under the key is a string or reads as
    [null] or [undefined], and whose [id] is a number or reads as [null]
    or [undefined], the helper passes exactly when the pairs (lower-cased
    text, id) are in order: by text in code unit order in the given
    direction, and by id upwards among equal texts.  The pair of a record
    is the lower-cased string (the empty string for [null] and
    [undefined]) with the id (0 for [null] and [undefined]), so neither
    the letter case of the text nor any other field of the records
    changes the verdict.  A field the record does not have reads as
    [undefined] exactly when the key is not the name of a property of
    [Object.prototype]; ["id"] is no such name. *)
Theorem passes_iff_in_text_order (key : string) (order : direction)
    (array : list record) (keys : list (string * Z)) :
  Forall2 (has_text_key key) array keys →
  (thrown (assertSortedByKey array key order) = None ↔
     StronglySorted (key_le String.compare order) keys) ∧
  (∀ array', Forall2 (has_text_key key) array' keys →
     thrown (assertSortedByKey array' key order)
     = thrown (assertSortedByKey array key order)) ∧
  (∀ (o : record) (t : string) (m : Z),
     get o key = JStr t ∨ (is_nullish (get o key) = true ∧ t = "") →
     get o "id" = JNum m ∨ (is_nullish (get o "id") = true ∧ m = 0%Z) →
     has_text_key key o (toLocaleLowerCase t, m)) ∧
  (∀ o : record, o !! key = None →
     is_nullish (get o key) = true ↔ key ∉ Object_prototype) ∧
  (∀ o : record, o !! "id" = None → get o "id" = JUndefined).
Proof.
  intros Hkeys. split; [by apply passes_text|]. split; [|split; [|split]].
  - intros array' Hkeys'. apply same_verdict.
    by rewrite (passes_text key order array keys),
      (passes_text key order array' keys).
  - intros o t m Ht Hm. unfold has_text_key, primary, id_of, norm,
      nullish_coalesce. simpl.
    destruct Ht as [->|[-> ->]], Hm as [->|[-> ->]]; done.
  - intros o. apply get_absent_nullish.
  - intros o Ho. unfold get. by rewrite Ho.
Qed.
End KeyedVerdicts.

Lemma passes_iff_in_text_order_witness :
  thrown (assertSortedByKey (H := integer_host)
            [ {[ "title" := JStr "APPLE"; "price" := JNum 3 ]};
              {[ "id" := JNum 7; "title" := JStr "banana" ]} ] "title" asc)
  = thrown (assertSortedByKey (H := integer_host)
              [titled "apple"; product 7 "Banana"] "title" asc).
Proof.
  destruct (passes_iff_in_text_order (H := integer_host) "title" asc
              [titled "apple"; product 7 "Banana"]
              [("apple", 0%Z); ("banana", 7%Z)]) as (_ & Hsame & _ & _ & _).
  - repeat constructor.
  - apply Hsame. repeat constructor.
Defined.

Section NumberVerdicts.
Context `{Host}.

(** X12.  On records whose value under the key is a number and whose
    [id] is a number, [null] or absent (a price, a stock, the id itself),
    the helper passes exactly when the pairs (number, id) are in order:
    by number in the given direction, and by id upwards among equal
    numbers.  Sorting by ["id"] is the case where the two coincide:
    ascending the helper passes exactly the arrays whose ids never go
    down, descending those whose ids never go up. *)
Theorem passes_iff_in_number_order (key : string) (order : direction)
    (array : list record) (keys : list (Z * Z)) :
  Forall2 (has_number_key key) array keys →
  (thrown (assertSortedByKey array key order) = None ↔
     StronglySorted (key_le Z.compare order) keys) ∧
  (∀ (o : record) (n m : Z),
     get o key = JNum n →
     get o "id" = JNum m ∨ (is_nullish (get o "id") = true ∧ m = 0%Z) →
     has_number_key key o (n, m)) ∧
  (∀ (ids : list Z),
     Forall2 (λ o i, get o "id" = JNum i) array ids →
     (thrown (assertSortedByKey array "id" asc) = None ↔
        StronglySorted Z.le ids) ∧
     (thrown (assertSortedByKey array "id" desc) = None ↔
        StronglySorted Z.ge ids)).
Proof.
  intros Hkeys. split; [by apply passes_number|]. split.
  - intros o n m Hn Hm. unfold has_number_key, primary, id_of, norm,
      nullish_coalesce. simpl. rewrite Hn.
    destruct Hm as [->|[-> ->]]; done.
  - intros ids Hids.
    assert (Hpairs : Forall2 (has_number_key "id") array ((λ i, (i, i)) <$> ids)).
    { clear Hkeys. induction Hids as [|o i array ids Ho _ IH]; simpl;
        constructor; [|done].
      unfold has_number_key, primary, id_of, norm, nullish_coalesce.
      by rewrite Ho. }
    rewrite !(passes_number "id" _ array _ Hpairs). split.
    + split.
      * apply (StronglySorted_Forall2 _ _ (λ k i, k = (i, i))).
        -- intros ? ? x y -> ->. unfold key_le. simpl.
           destruct (Z.compare_spec x y); [lia|lia|done].
        -- clear. induction ids; simpl; by constructor.
      * apply (StronglySorted_Forall2 _ _ (λ i k, k = (i, i))).
        -- intros x y ? ? -> ->. unfold key_le. simpl.
           destruct (Z.compare_spec x y); try done. lia.
        -- clear. induction ids; simpl; by constructor.
    + split.
      * apply (StronglySorted_Forall2 _ _ (λ k i, k = (i, i))).
        -- intros ? ? x y -> ->. unfold key_le. simpl.
           destruct (Z.compare_spec x y); [lia|done|lia].
        -- clear. induction ids; simpl; by constructor.
      * apply (StronglySorted_Forall2 _ _ (λ i k, k = (i, i))).
        -- intros x y ? ? -> ->. unfold key_le. simpl.
           destruct (Z.compare_spec x y); try done. lia.
        -- clear. induction ids; simpl; by constructor.
Qed.

(** X13.  The expected order is accepted: on records with textual keys,
    or on records with numeric keys, (ids numeric in both cases) the array
    [orderBy] returns passes the helper for the same key and direction,
    and sorting it once more changes nothing. *)
Theorem expected_order_passes (key : string) (order : direction)
    (array : list record) :
  Forall (plain key) array ∨ Forall (numeric key) array →
  let sorted := orderBy array (iteratees key) (orders order) in
  thrown (assertSortedByKey sorted key order) = None ∧
  orderBy sorted (iteratees key) (orders order) = sorted.
Proof.
  intros Hclass sorted.
  assert (Hperm : sorted ≡ₚ array)
    by (unfold sorted; apply orderBy_perm).
  assert (Hpass : thrown (assertSortedByKey sorted key order) = None).
  { destruct Hclass as [Hplain|Hnum].
    - apply assertSortedByKey_plain; [by rewrite Hperm|].
      unfold sorted. rewrite orderBy_stable_sort.
      by apply stable_sort_by_key_sorted.
    - destruct (assertSortedByKey_ordered key order (numeric key) array)
        as [Hsorted _]; [apply numeric_total|apply numeric_trans|done|].
      destruct (assertSortedByKey_ordered key order (numeric key) sorted)
        as [_ Hiff]; [apply numeric_total|apply numeric_trans|by rewrite Hperm|].
      by apply Hiff. }
  split; [done|]. symmetry. by apply assertSortedByKey_thrown.
Qed.

(** X14.  Ascending and descending are mirror images only up to the
    tie-break: when an array of records with textual keys passes
    ascending, its reversal passes descending exactly when no two of its
    records have the same text with different ids (the ids must go up in
    both directions). *)
Theorem reversal_passes_descending (key : string)
    (array : list record) (keys : list (string * Z)) :
  Forall2 (has_text_key key) array keys →
  thrown (assertSortedByKey array key asc) = None →
  thrown (assertSortedByKey (reverse array) key desc) = None ↔
  (∀ k k', k ∈ keys → k' ∈ keys → k.1 = k'.1 → k.2 = k'.2).
Proof.
  intros Hkeys Hasc.
  rewrite (passes_text key asc array keys Hkeys) in Hasc.
  rewrite (passes_text key desc (reverse array) (reverse keys))
    by by apply Forall2_reverse.
  apply key_le_reverse; [|apply string_compare_eq|done].
  intros x y. apply String.compare_antisym.
Qed.
End NumberVerdicts.

Lemma passes_iff_in_number_order_witness :
  thrown (assertSortedByKey (H := integer_host)
            [priced 4 10; priced 2 10; priced 1 25] "price" asc)
  ≠ None ∧
  thrown (assertSortedByKey (H := integer_host)
            [priced 3 99; priced 2 5; priced 1 5] "id" desc) = None.
Proof.
  split.
  - destruct (passes_iff_in_number_order (H := integer_host) "price" asc
                [priced 4 10; priced 2 10; priced 1 25]
                [(10, 4); (10, 2); (25, 1)]%Z) as ([Hsorted _] & _).
    + repeat constructor.
    + intros Hpass. specialize (Hsorted Hpass).
      apply StronglySorted_inv in Hsorted as [_ Hall].
      apply Forall_inv in Hall. unfold key_le in Hall. simpl in Hall. lia.
  - destruct (passes_iff_in_number_order (H := integer_host) "id" desc
                [priced 3 99; priced 2 5; priced 1 5]
                [(3, 3); (2, 2); (1, 1)]%Z) as (_ & _ & Hids).
    + repeat constructor.
    + destruct (Hids [3; 2; 1]%Z) as [_ [_ Hdesc]]; [repeat constructor|].
      apply Hdesc. repeat constructor; lia.
Defined.

Lemma expected_order_passes_witness :
  thrown (assertSortedByKey (H := integer_host)
            (orderBy (H := integer_host)
               [product 2 "pear"; product 1 "Apple"; product 3 "apple"]
               (iteratees "title") (orders desc))
            "title" desc) = None.
Proof.
  destruct (expected_order_passes (H := integer_host) "title" desc
              [product 2 "pear"; product 1 "Apple"; product 3 "apple"])
    as [Hpass _].
  - left. repeat constructor.
  - exact Hpass.
Defined.

Lemma reversal_passes_descending_witness :
  thrown (assertSortedByKey (H := integer_host)
            (reverse [product 1 "apple"; product 2 "Apple"; product 3 "pear"])
            "title" desc) ≠ None.
Proof.
  intros Hpass.
  destruct (reversal_passes_descending (H := integer_host) "title"
              [product 1 "apple"; product 2 "Apple"; product 3 "pear"]
              [("apple", 1%Z); ("apple", 2%Z); ("pear", 3%Z)]) as [Hties _].
  - repeat constructor.
  - by vm_compute.
  - specialize (Hties Hpass ("apple", 1%Z) ("apple", 2%Z)).
    assert (1 = 2)%Z as Habs; [|lia].
    apply Hties; [by left | by right; left | reflexivity].
Defined.

(** ** What the criteria are *)

Section Criteria.
Context `{Host}.

(** X15.  Neither iteratee ever yields [null] or [undefined]: [norm]
    turns both into the empty string and [?? 0] into 0.  So of lodash's
    [compareAscending] only the two relational tests are ever reached by
    the helper, not its placing of [null], [undefined], symbols or NaN.
    Normalising a normalised value changes nothing. *)
Theorem criteria_are_defined (key : string) :
  (∀ o : record,
     Forall (λ c, is_nullish c = false)
       ((λ iteratee, iteratee o) <$> iteratees key)) ∧
  (∀ a b : record,
     compareAscending (primary key a) (primary key b) =
       (if js_gt (primary key a) (primary key b) then 1
        else if js_lt (primary key a) (primary key b) then -1 else 0)%Z ∧
     compareAscending (id_of a) (id_of b) =
       (if js_gt (id_of a) (id_of b) then 1
        else if js_lt (id_of a) (id_of b) then -1 else 0)%Z) ∧
  (∀ v, norm (norm v) = norm v).
Proof.
  split; [|split].
  - intros o. simpl. repeat constructor.
    + apply norm_defined.
    + apply (id_of_defined o).
  - intros a b. split.
    + apply compareAscending_defined; apply norm_defined.
    + apply compareAscending_defined; apply id_of_defined.
  - intros v. destruct v; try done. simpl. unfold norm. simpl.
    by rewrite toLocaleLowerCase_idemp.
Qed.

Lemma compare_by_key_null_string_desc key a b s :
  is_nullish (get a key) = true → get b key = JStr s → s ≠ "" →
  compare_by_key key desc a b = 1%Z ∧ compare_by_key key desc b a = (-1)%Z.
Proof.
  intros Ha Hb Hs. unfold compare_by_key.
  rewrite (primary_nullish key a Ha), (primary_string key b s Hb).
  rewrite !compareAscending_strings.
  assert (Hlow : toLocaleLowerCase s ≠ "") by by rewrite toLocaleLowerCase_empty.
  assert (Hgt : String.compare (toLocaleLowerCase s) "" = Gt)
    by by apply string_compare_gt, string_compare_empty.
  by rewrite Hgt, (string_compare_empty _ Hlow).
Qed.

(** X16.  In descending order a record whose sort field reads as
    [null] or [undefined] (as an absent field does under every key but
    the names of the properties of [Object.prototype]) comes after every
    record whose field is a non-empty string:
    [orderBy] puts it last whichever way round the two come, and it stands
    after the other in the expected order of every array of records with
    textual keys and numeric ids.  Against a record whose field is the
    empty string it is a tie in both directions: [null] and [""] are the
    same key, and the ids decide. *)
Theorem null_last_descending (key : string) (a : record) :
  is_nullish (get a key) = true →
  (∀ (b : record) (s : string), get b key = JStr s → s ≠ "" →
     orderBy [a; b] (iteratees key) (orders desc) = [b; a] ∧
     orderBy [b; a] (iteratees key) (orders desc) = [b; a] ∧
     (∀ array, Forall (plain key) array →
        precedes b a (orderBy array (iteratees key) (orders desc)))) ∧
  (∀ (c : record) (order : direction), get c key = JStr "" →
     compare_by_key key order a c = compareAscending (id_of a) (id_of c) ∧
     compare_by_key key order c a = compareAscending (id_of c) (id_of a)).
Proof.
  intros Ha. split.
  - intros b s Hb Hs.
    destruct (compare_by_key_null_string_desc key a b s) as [Hab Hba]; [done..|].
    split; [|split].
    + by rewrite orderBy_two, Hab.
    + by rewrite orderBy_two, Hba.
    + intros array Hplain. apply precedes_in_order; [done|lia|lia].
  - intros c order Hc.
    assert (Heq : primary key a = primary key c)
      by by rewrite (primary_nullish key a Ha), (primary_string key c "" Hc).
    split; by apply compare_by_key_tie.
Qed.
End Criteria.

Lemma null_last_descending_witness :
  orderBy (H := integer_host)
    [ {[ "title" := JNull ]}; titled "Apple" ] (iteratees "title") (orders desc)
  = [ titled "Apple"; {[ "title" := JNull ]} ].
Proof.
  destruct (null_last_descending (H := integer_host) "title"
              {[ "title" := JNull ]}) as [Hlast _]; [reflexivity|].
  destruct (Hlast (titled "Apple") "Apple") as [Hswap _];
    [reflexivity | discriminate |].
  exact Hswap.
Defined.

(** ** Running the helper twice *)

Section Twice.
Context `{Host}.

(** X17.  Run twice on the same array in the store, the helper gives the
    same outcome both times: the input array is still as it was after the
    second run, every array of the store is, and each run has written its
    own sorted copy, at two different locations that were free. *)
Theorem helper_twice_in_store (key : string) (order : direction)
    (σ : store) (l : positive) (array : list record) :
  σ !! l = Some (Records array) →
  let first := assertSortedByKey_st l key order σ in
  let second := assertSortedByKey_st l key order first.2 in
  second.1 = first.1 ∧
  second.1 = assertSortedByKey array key order ∧
  second.2 !! l = Some (Records array) ∧
  σ ⊆ second.2 ∧
  ∃ copy copy',
    copy ≠ copy' ∧ σ !! copy = None ∧ σ !! copy' = None ∧
    second.2 !! copy = Some (Records (orderBy array (iteratees key) (orders order))) ∧
    second.2 !! copy' = Some (Records (orderBy array (iteratees key) (orders order))).
Proof.
  intros Hl first second.
  destruct (assertSortedByKey_st_spec l key order σ array Hl)
    as (copy & Hfresh & Hfirst).
  assert (Hl1 : first.2 !! l = Some (Records array)).
  { unfold first. rewrite Hfirst. simpl.
    rewrite lookup_insert_ne; [done|congruence]. }
  destruct (assertSortedByKey_st_spec l key order first.2 array Hl1)
    as (copy' & Hfresh' & Hsecond).
  fold second in Hsecond.
  assert (Hone : first.2 =
            <[copy := Records (orderBy array (iteratees key) (orders order))]> σ)
    by (unfold first; by rewrite Hfirst).
  assert (Hne : copy ≠ copy').
  { intros <-. rewrite Hone, lookup_insert_eq in Hfresh'. done. }
  rewrite Hsecond. simpl. unfold first at 1. rewrite Hfirst. simpl.
  split; [done|]. split; [done|]. split.
  { rewrite lookup_insert_ne; [done|congruence]. }
  split.
  { etrans; [|by apply insert_subseteq]. rewrite Hone.
    by apply insert_subseteq. }
  exists copy, copy'. split; [done|]. split; [done|]. split.
  { rewrite Hone in Hfresh'. rewrite lookup_insert_ne in Hfresh' by done. done. }
  split.
  - rewrite lookup_insert_ne by done. rewrite Hone. by rewrite lookup_insert_eq.
  - by rewrite lookup_insert_eq.
Qed.
End Twice.

Lemma helper_twice_in_store_witness :
  let σ : store := {[ 1%positive := Records [product 1 "Zeta"; product 2 "alpha"] ]} in
  (assertSortedByKey_st (H := integer_host) 1 "title" asc
     (assertSortedByKey_st (H := integer_host) 1 "title" asc σ).2).1
  = (assertSortedByKey_st (H := integer_host) 1 "title" asc σ).1.
Proof.
  intros σ.
  destruct (helper_twice_in_store (H := integer_host) "title" asc σ 1%positive
              [product 1 "Zeta"; product 2 "alpha"]) as [Hsame _];
    [reflexivity|].
  exact Hsame.
Defined.
